(** * The in-memory assembler of s3tar (mem_concat.go)

    A shallow embedding of [buildInMemoryConcat] and of the functions it
    calls, with the properties of the assembler stated over it.  Object-store
    requests are kept as a trace of events; the answers of the store, the tar
    header codec of [archive/tar] and the helpers of the package that live in
    other files are fields of one record, [World]. *)

From Stdlib Require Import ZArith Bool String Ascii List Lia Permutation.
From Stdlib.Strings Require Import Byte.
Import ListNotations.

Local Open Scope Z_scope.

(** ** Machine integers *)

(** [int64] and [int32] values are integers of [Z]; an addition wraps. *)
Definition wrap64 (z : Z) : Z := (z + 2 ^ 63) mod 2 ^ 64 - 2 ^ 63.
Definition wrap32 (z : Z) : Z := (z + 2 ^ 31) mod 2 ^ 32 - 2 ^ 31.
Definition add64 (a b : Z) : Z := wrap64 (a + b).

Definition in_int64 (z : Z) : Prop := - 2 ^ 63 <= z < 2 ^ 63.

(** ** Constants of the package

    [mem_concat.go] uses [fileSizeMin], [partSizeMax], [maxPartNumLimit]
    and [blockSize]; they are declared in another file of the package. *)

(** Modelled from the spec: the constant declarations are not in
    [mem_concat.go].  Section 3 gives [partSizeMin = 5 MiB] (the name in the
    code is [fileSizeMin]), [partSizeMax = 5 GiB] (the error text of
    [buildInMemoryConcat] says 5GiB), [maxPartNumLimit = 10 000] (the error
    text says 10k) and [tarBlockSize = 512]. *)
Definition MiB : Z := 1024 * 1024.
Definition GiB : Z := 1024 * 1024 * 1024.
Definition blockSize : Z := 512.
Definition fileSizeMin : Z := 5 * MiB.
Definition partSizeMax : Z := 5 * GiB.
Definition maxPartNumLimit : Z := 10000.

(** ** Data model *)

Definition bytes := list byte.

Definition zeros (n : Z) : bytes := repeat x00 (Z.to_nat n).

Definition blen (b : bytes) : Z := Z.of_nat (length b).

(** [S3Obj]: a [types.Object] with its bucket and optional inline data.
    The pointer fields [Key], [Size] and [LastModified] are dereferenced
    without a check in the code; the model holds the pointed values. *)
Record S3Obj : Type := mkS3Obj {
  Bucket : string;
  Key : string;
  ETag : string;
  Size : Z;
  LastModified : Z;
  Data : bytes
}.

Definition metadata := list (string * string).

Inductive Format : Type := FormatUSTAR | FormatPAX | FormatGNU.

(** The fields of [tar.Header] that [tarGroup] sets, and the ones
    [setHeaderPermissions] may set. *)
Record Header : Type := mkHeader {
  Name : string;
  HSize : Z;
  Mode : Z;
  ModTime : Z;
  ChangeTime : Z;
  AccessTime : Z;
  HFormat : Format;
  Uid : Z;
  Gid : Z
}.

Record S3TarS3Options : Type := mkOpts {
  DstBucket : string;
  DstKey : string;
  UserMaxPartSize : Z;
  SedExpression : string;
  PreservePOSIXMetadata : bool;
  ObjectTags : list (string * string);
  storageClass : string;
  KMSKeyID : string;
  SSEAlgo : string
}.

(** ** Errors and results *)

Inductive TarError : Type :=
| ErrWriteTooLong
| ErrMissedWriting (nb : Z)
| ErrHeader (msg : string).

Inductive Error : Type :=
| ErrLargestObject                 (* "largest object is over the 5GiB limit" *)
| ErrPartBudget (n : Z)            (* "number of parts (n) exceeded ..." *)
| ErrStore (op : string) (msg : string)   (* an error returned by the client *)
| ErrSed (msg : string)            (* an error of applySedExpression *)
| ErrTar (e : TarError)            (* an error of the tar writer *)
| PanicSliceBounds.                (* data[0 : len(data)-1024] out of range *)

Inductive result (A : Type) : Type :=
| Ok (a : A)
| Err (e : Error).
Arguments Ok {A} a.
Arguments Err {A} e.

(** ** Requests sent to the object store *)

Record CompletedPart : Type := mkPart {
  PartETag : string;
  PartNumber : Z;
  ChecksumSHA256 : string
}.

Inductive Event : Type :=
| EvGetObject (bucket key : string)
| EvPutObject (bucket key : string) (body : bytes)
| EvCreateMultipartUpload (bucket key : string)
| EvUploadPart (uploadId bucket key : string) (partNum : Z) (body : bytes)
| EvCompleteMultipartUpload (uploadId bucket key : string)
                            (parts : list CompletedPart).

Definition is_write (e : Event) : bool :=
  match e with
  | EvGetObject _ _ => false
  | _ => true
  end.

(** A computation: the requests it sent, in order, and its outcome. *)
Definition M (A : Type) : Type := (list Event * result A)%type.

Definition ret {A} (a : A) : M A := ([], Ok a).
Definition fail {A} (e : Error) : M A := ([], Err e).
Definition bind {A B} (m : M A) (k : A -> M B) : M B :=
  match m with
  | (t, Ok a) => let '(t', r) := k a in (t ++ t', r)
  | (t, Err e) => (t, Err e)
  end.
Definition lift {A} (r : result A) : M A := ([], r).
Definition emit {A} (e : Event) (r : result A) : M A := ([e], r).

Declare Scope m_scope.
Delimit Scope m_scope with M.
Notation "x <- c ;; k" := (bind c (fun x => k))
  (at level 61, c at next level, right associativity) : m_scope.
Notation "' p <- c ;; k" := (bind c (fun x => match x with p => k end))
  (at level 61, p pattern, c at next level, right associativity) : m_scope.

Definition trace {A} (m : M A) : list Event := fst m.
Definition outcome {A} (m : M A) : result A := snd m.

(** ** The world outside [mem_concat.go] *)

(** What a call that leaves the file answers: a value or an error text. *)
Inductive reply (A : Type) : Type :=
| Done (a : A)
| Failed (msg : string).
Arguments Done {A} a.
Arguments Failed {A} msg.

Record World : Type := mkWorld {
  (* the object store *)
  GetObject : string -> string -> reply (bytes * metadata);
  PutObject : string -> string -> bytes -> reply string;
  CreateMultipartUpload : string -> string -> reply string;
  UploadPart : string -> string -> string -> Z -> bytes ->
               reply (string * string);
  CompleteMultipartUpload : string -> string -> string ->
                            list CompletedPart ->
                            reply (string * string * string);
  (* archive/tar: the blocks written for one header *)
  encodeHeader : Header -> reply bytes;
  (* the package: utils.go and the globals *)
  applySedExpression : string -> string -> reply string;
  posixBits : metadata -> option (Z * Z * Z);
  findMinimumPartSize : Z -> Z -> Z;
  tarFormat : Format;
  now : Z
}.

Definition of_store {A} (op : string) (r : reply A) : result A :=
  match r with
  | Done a => Ok a
  | Failed msg => Err (ErrStore op msg)
  end.

Definition of_sed {A} (r : reply A) : result A :=
  match r with
  | Done a => Ok a
  | Failed msg => Err (ErrSed msg)
  end.

Definition of_tar {A} (r : reply A) : result A :=
  match r with
  | Done a => Ok a
  | Failed msg => Err (ErrTar (ErrHeader msg))
  end.

Section Assembler.

Variable W : World.

Local Open Scope m_scope.

(** ** The tar writer *)

(** Modelled from the spec: [tar.Writer] is the imported package
    [archive/tar], not code of [mem_concat.go].  Section 4.1: header blocks,
    then the payload, then [(-L) mod 512] zero bytes after a payload of
    length [L]; the trailer is two all-zero blocks.  The writer refuses a
    payload longer than the size of its header ([ErrWriteTooLong]) and
    refuses to go on after a shorter one (missed writing).  The header
    blocks themselves are [encodeHeader W]. *)
Record Writer : Type := mkWriter {
  buf : bytes;        (* the bytes.Buffer under the writer *)
  nb : Z;             (* bytes of the current entry still to write *)
  pad : Z             (* padding owed after the current entry *)
}.

Definition NewWriter : Writer := mkWriter [] 0 0.

Definition blockPadding (offset : Z) : Z := Z.land (- offset) (blockSize - 1).

Definition Flush (tw : Writer) : result Writer :=
  if 0 <? nb tw then Err (ErrTar (ErrMissedWriting (nb tw)))
  else Ok (mkWriter (buf tw ++ zeros (pad tw)) (nb tw) 0).

Definition WriteHeader (tw : Writer) (h : Header) : result Writer :=
  match Flush tw with
  | Err e => Err e
  | Ok tw1 =>
      match of_tar (encodeHeader W h) with
      | Err e => Err e
      | Ok blk =>
          Ok (mkWriter (buf tw1 ++ blk) (HSize h) (blockPadding (HSize h)))
      end
  end.

Definition Write (tw : Writer) (b : bytes) : result Writer :=
  if nb tw <? blen b then Err (ErrTar ErrWriteTooLong)
  else Ok (mkWriter (buf tw ++ b) (nb tw - blen b) (pad tw)).

(** [io.Copy(tw, r)]: nothing is written when the reader is empty. *)
Definition ioCopy (tw : Writer) (r : bytes) : result Writer :=
  match r with
  | [] => Ok tw
  | _ :: _ => Write tw r
  end.

Definition Close (tw : Writer) : result Writer :=
  match Flush tw with
  | Err e => Err e
  | Ok tw1 =>
      Ok (mkWriter ((buf tw1 ++ zeros blockSize) ++ zeros blockSize)
                   (nb tw1) (pad tw1))
  end.

(** Modelled from the spec: [setHeaderPermissions] is in another file of
    the package.  Section 4.1: when requested, the header carries the POSIX
    user, group and permission bits; they are read from the metadata of the
    object ([posixBits W], as user, group, mode) and the other fields of the
    header stay as they are. *)
Definition setHeaderPermissions (h : Header) (s3metadata : metadata)
    : Header :=
  match posixBits W s3metadata with
  | None => h
  | Some (uid, gid, mode) =>
      mkHeader (Name h) (HSize h) mode (ModTime h) (ChangeTime h)
               (AccessTime h) (HFormat h) uid gid
  end.

(** ** mem_concat.go *)

Definition sumSlice (i : list Z) : Z := fold_left add64 i 0.

Fixpoint findLargestLoop (objectList : list S3Obj)
    (largestObject : Z) (largestObjectKey : string) : Z * string :=
  match objectList with
  | [] => (largestObject, largestObjectKey)
  | o :: rest =>
      if largestObject <? Size o
      then findLargestLoop rest (Size o) (Key o)
      else findLargestLoop rest largestObject largestObjectKey
  end.

(** The key of the largest object is only printed. *)
Definition findLargestObject (objectList : list S3Obj) : Z :=
  fst (findLargestLoop objectList 0 EmptyString).

Definition uploadObject (bucket key : string) (data : bytes)
    (opts : S3TarS3Options) : M S3Obj :=
  etag <- emit (EvPutObject bucket key data)
               (of_store "PutObject" (PutObject W bucket key data)) ;;
  ret (mkS3Obj bucket key etag (blen data) (now W) []).

Definition uploadPart (uploadId bucket key : string) (data : bytes)
    (partNum : Z) : M (string * string) :=
  emit (EvUploadPart uploadId bucket key partNum data)
       (of_store "UploadPart" (UploadPart W uploadId bucket key partNum data)).

Definition downloadS3Data (object : S3Obj) : M (bytes * metadata) :=
  emit (EvGetObject (Bucket object) (Key object))
       (of_store "GetObject" (GetObject W (Bucket object) (Key object))).

(** The [tar.Header] that [tarGroup] fills for one object; the mode is
    0600. *)
Definition entryHeader (opts : S3TarS3Options) (transformedKey : string)
    (o : S3Obj) (s3metadata : metadata) : Header :=
  let h := mkHeader transformedKey (Size o) 384 (LastModified o)
                    (LastModified o) (LastModified o) (tarFormat W) 0 0 in
  if PreservePOSIXMetadata opts
  then setHeaderPermissions h s3metadata else h.

(** One turn of the loop of [tarGroup]. *)
Definition tarEntry (opts : S3TarS3Options) (tw : Writer) (o : S3Obj)
    : M Writer :=
  '(r, s3metadata) <-
     (if 0 <? blen (Data o) then ret (Data o, []) else downloadS3Data o) ;;
  transformedKey <-
     lift (of_sed (applySedExpression W (Key o) (SedExpression opts))) ;;
  let h := entryHeader opts transformedKey o s3metadata in
  tw1 <- lift (WriteHeader tw h) ;;
  lift (ioCopy tw1 r).

Fixpoint tarLoop (opts : S3TarS3Options) (tw : Writer)
    (objectList : list S3Obj) : M Writer :=
  match objectList with
  | [] => ret tw
  | o :: rest => tw1 <- tarEntry opts tw o ;; tarLoop opts tw1 rest
  end.

Definition tarGroup (objectList : list S3Obj) (opts : S3TarS3Options)
    : M bytes :=
  tw <- tarLoop opts NewWriter objectList ;;
  tw1 <- lift (Flush tw) ;;
  tw2 <- lift (Close tw1) ;;
  ret (buf tw2).

Fixpoint splitLoop (groupSizeLimit : Z) (objectList : list S3Obj)
    (groups : list (list S3Obj)) (currentGroup : list S3Obj)
    (currentSize : Z) : list (list S3Obj) :=
  match objectList with
  | [] =>
      if (0 <? Z.of_nat (length currentGroup))
      then groups ++ [currentGroup] else groups
  | o :: rest =>
      let currentGroup := currentGroup ++ [o] in
      let currentSize := add64 currentSize (Size o) in
      if (groupSizeLimit <? currentSize) && (fileSizeMin <? currentSize)
      then splitLoop groupSizeLimit rest (groups ++ [currentGroup]) [] 0
      else splitLoop groupSizeLimit rest groups currentGroup currentSize
  end.

Definition splitSliceBySizeLimit (groupSizeLimit : Z)
    (objectList : list S3Obj) : list (list S3Obj) :=
  splitLoop groupSizeLimit objectList [] [] 0.

(** [data[0 : len(data)-1024]]; the slice expression panics out of range. *)
Definition dropTrailer (data : bytes) : M bytes :=
  if blen data - 1024 <? 0 then fail PanicSliceBounds
  else ret (firstn (Z.to_nat (blen data - 1024)) data).

(** The body of the goroutine started for [groups[i]]. *)
Definition groupTask (opts : S3TarS3Options) (uploadId : string)
    (ngroups : Z) (i : Z) (group : list S3Obj) : M (CompletedPart * Z) :=
  data <- tarGroup group opts ;;
  let partNum := wrap32 (i + 1) in
  data1 <- (if negb (i =? ngroups - 1) then dropTrailer data else ret data) ;;
  '(etag, sha) <- uploadPart uploadId (DstBucket opts) (DstKey opts)
                             data1 partNum ;;
  ret (mkPart etag partNum sha, blen data1).

Fixpoint groupTasks (opts : S3TarS3Options) (uploadId : string)
    (ngroups : Z) (i : Z) (groups : list (list S3Obj))
    : list (M (CompletedPart * Z)) :=
  match groups with
  | [] => []
  | group :: rest =>
      groupTask opts uploadId ngroups i group
      :: groupTasks opts uploadId ngroups (i + 1) rest
  end.

(** [g.Wait()]: the context of the errgroup is dropped, so every goroutine
    runs to its end whatever the others return; the error is that of a
    failed goroutine.  The goroutines are taken in index order here. *)
Fixpoint waitAll {A} (tasks : list (M A)) : M (list A) :=
  match tasks with
  | [] => ret []
  | (t, r) :: rest =>
      let '(t', rs) := waitAll rest in
      (t ++ t',
       match r, rs with
       | Err e, _ => Err e
       | Ok _, Err e => Err e
       | Ok a, Ok l => Ok (a :: l)
       end)
  end.

Definition processGroups (opts : S3TarS3Options) (uploadId : string)
    (groups : list (list S3Obj)) : M (list (CompletedPart * Z)) :=
  waitAll (groupTasks opts uploadId (Z.of_nat (length groups)) 0 groups).

Definition buildInMemoryConcat (objectList : list S3Obj)
    (estimatedSize : Z) (opts : S3TarS3Options) : M S3Obj :=
  let largestObjectSize := findLargestObject objectList in
  if partSizeMax <? largestObjectSize then fail ErrLargestObject
  else if estimatedSize <? fileSizeMin then
    data <- tarGroup objectList opts ;;
    uploadObject (DstBucket opts) (DstKey opts) data opts
  else
    let sizeLimit :=
      findMinimumPartSize W estimatedSize (UserMaxPartSize opts) in
    let groups := splitSliceBySizeLimit sizeLimit objectList in
    if maxPartNumLimit <? Z.of_nat (length groups)
    then fail (ErrPartBudget (Z.of_nat (length groups)))
    else
      uploadId <-
        emit (EvCreateMultipartUpload (DstBucket opts) (DstKey opts))
             (of_store "CreateMultipartUpload"
                (CreateMultipartUpload W (DstBucket opts) (DstKey opts))) ;;
      done <- processGroups opts uploadId groups ;;
      let parts := map fst done in
      let partsSizeList := map snd done in
      '(bucket, key, etag) <-
        emit (EvCompleteMultipartUpload uploadId (DstBucket opts)
                                        (DstKey opts) parts)
             (of_store "CompleteMultipartUpload"
                (CompleteMultipartUpload W uploadId (DstBucket opts)
                                         (DstKey opts) parts)) ;;
      let totalSize := sumSlice partsSizeList in
      ret (mkS3Obj bucket key etag totalSize (now W) []).

End Assembler.

(** ** Sizes of groups *)

(** The running [currentSize] of [splitSliceBySizeLimit] over one group. *)
Definition cumSize (group : list S3Obj) : Z :=
  fold_left (fun acc o => add64 acc (Size o)) group 0.

(** The sum of the sizes, without wrap-around. *)
Definition totalSize (group : list S3Obj) : Z :=
  fold_right (fun o acc => Size o + acc) 0 group.

(** The test that closes a group. *)
Definition closed (groupSizeLimit : Z) (group : list S3Obj) : Prop :=
  groupSizeLimit < cumSize group /\ fileSizeMin < cumSize group.

(** What the merge rule asks of a grouping: a last group that has a
    predecessor is not below the minimum part size. *)
Definition trailingGroupMeetsMinimum (groups : list (list S3Obj)) : Prop :=
  forall front last,
    groups = front ++ [last] -> front <> [] -> fileSizeMin <= totalSize last.

(** An object that is only a size, for the examples on grouping. *)
Definition sized (key : string) (size : Z) : S3Obj :=
  mkS3Obj "src" key "" size 0 [].

(** ** The archive, member by member *)

Section Archive.

Variable W : World.
Variable opts : S3TarS3Options.

(** The payload of a member: its inline data when there is some, the
    object read from the store otherwise. *)
Definition payloadOf (o : S3Obj) : option (bytes * metadata) :=
  if 0 <? blen (Data o) then Some (Data o, [])
  else match GetObject W (Bucket o) (Key o) with
       | Done x => Some x
       | Failed _ => None
       end.

(** The header that [tarGroup] fills for a member. *)
Definition headerOf (o : S3Obj) (s3metadata : metadata) : option Header :=
  match applySedExpression W (Key o) (SedExpression opts) with
  | Failed _ => None
  | Done transformedKey =>
      Some (entryHeader W opts transformedKey o s3metadata)
  end.

Definition headerBlocks (o : S3Obj) (s3metadata : metadata) : option bytes :=
  match headerOf o s3metadata with
  | None => None
  | Some h => match encodeHeader W h with
              | Done blk => Some blk
              | Failed _ => None
              end
  end.

(** The payload has the length its header announces. *)
Definition wellSized (o : S3Obj) (payload : bytes) : bool :=
  match payload with
  | [] => Size o <=? 0
  | _ :: _ => blen payload =? Size o
  end.

(** header(i), payload(i), pad(i). *)
Definition member (o : S3Obj) : option bytes :=
  match payloadOf o with
  | None => None
  | Some (payload, s3metadata) =>
      match headerBlocks o s3metadata with
      | None => None
      | Some blk =>
          if wellSized o payload
          then Some (blk ++ payload ++ zeros (blockPadding (Size o)))
          else None
      end
  end.

Fixpoint members (plan : list S3Obj) : option bytes :=
  match plan with
  | [] => Some []
  | o :: rest =>
      match member o, members rest with
      | Some m, Some ms => Some (m ++ ms)
      | _, _ => None
      end
  end.

(** Two zero blocks. *)
Definition trailer : bytes := zeros blockSize ++ zeros blockSize.

(** The single-pass tar of a plan: every member in order, then the
    trailer. *)
Definition singlePassTar (plan : list S3Obj) : option bytes :=
  match members plan with
  | Some ms => Some (ms ++ trailer)
  | None => None
  end.

(** The buffer of a group as the assembler sends it: the tar of the group,
    less its last 1024 bytes unless the group is the last one. *)
Definition stripTrailer (data : bytes) : bytes :=
  firstn (length data - 1024) data.

Definition groupBuffer (terminal : bool) (group : list S3Obj)
    : option bytes :=
  match singlePassTar group with
  | Some data => Some (if terminal then data else stripTrailer data)
  | None => None
  end.

(** One part per group: part [i + 1] for [groups[i]], of [ngroups]. *)
Fixpoint expectedParts (ngroups i : Z) (groups : list (list S3Obj))
    : option (list (Z * bytes)) :=
  match groups with
  | [] => Some []
  | group :: rest =>
      match groupBuffer (i =? ngroups - 1) group,
            expectedParts ngroups (i + 1) rest with
      | Some body, Some parts => Some ((i + 1, body) :: parts)
      | _, _ => None
      end
  end.

End Archive.

(** ** Reading a trace *)

(** The parts sent by [UploadPart], in the order they were sent. *)
Fixpoint uploadedParts (t : list Event) : list (Z * bytes) :=
  match t with
  | [] => []
  | EvUploadPart _ _ _ partNum body :: rest =>
      (partNum, body) :: uploadedParts rest
  | _ :: rest => uploadedParts rest
  end.

Definition partBodies (t : list Event) : list bytes :=
  map snd (uploadedParts t).

Definition writes (t : list Event) : list Event := filter is_write t.

(** The bytes stored at the destination: the body of the [PutObject], or
    the parts one after the other. *)
Definition bodyOf (e : Event) : bytes :=
  match e with
  | EvPutObject _ _ body => body
  | EvUploadPart _ _ _ _ body => body
  | _ => []
  end.

Definition archiveOf (t : list Event) : bytes := concat (map bodyOf t).


(** The groups that [buildInMemoryConcat] makes of a list. *)
Definition groupsOf (W : World) (estimatedSize : Z) (opts : S3TarS3Options)
    (objectList : list S3Obj) : list (list S3Obj) :=
  splitSliceBySizeLimit
    (findMinimumPartSize W estimatedSize (UserMaxPartSize opts)) objectList.

(** ** A small world, for the examples *)

(** A header of one block that starts with the name. *)
Definition demoHeaderBlock (name : string) : bytes :=
  firstn (Z.to_nat blockSize) (list_byte_of_string name ++ zeros blockSize).

(** Every request is answered; an object holds the bytes of its key; a
    header is one block that starts with the name. *)
Definition demoWorld : World :=
  {| GetObject := fun _ key => Done (list_byte_of_string key, []);
     PutObject := fun _ _ _ => Done "etag-put"%string;
     CreateMultipartUpload := fun _ _ => Done "upload-1"%string;
     UploadPart := fun _ _ _ _ _ => Done ("etag-part", "sha")%string;
     CompleteMultipartUpload :=
       fun _ bucket key _ => Done (bucket, key, "etag-mpu"%string);
     encodeHeader :=
       fun h => if HSize h <? 0 then Failed "negative size"
                else Done (demoHeaderBlock (Name h));
     applySedExpression := fun key _ => Done key;
     posixBits := fun _ => None;
     findMinimumPartSize := fun _ user => Z.max user fileSizeMin;
     tarFormat := FormatPAX;
     now := 0 |}.

Definition demoOpts : S3TarS3Options :=
  mkOpts "dst" "archive.tar" fileSizeMin "" false [] "STANDARD" "" "".

(** An object with inline data. *)
Definition inline (key : string) (data : bytes) : S3Obj :=
  mkS3Obj "src" key "" (blen data) 0 data.

(** ** Notions used in the proofs *)

(** The buffer once the padding owed is written. *)
Definition flushed (tw : Writer) : bytes := buf tw ++ zeros (pad tw).

(** A trace of reads only. *)
Definition readsOnly (t : list Event) : Prop :=
  Forall (fun e => is_write e = false) t.

(** A computation that does not end on the error of the size check. *)
Definition notTooLarge {A} (m : M A) : Prop :=
  outcome m <> Err ErrLargestObject.

(** The request that sends one part. *)
Definition uploadOf (uploadId bucket key : string) (part : Z * bytes)
    : Event :=
  EvUploadPart uploadId bucket key (fst part) (snd part).


(** The small world, with every object made of 4 MiB of zero bytes. *)
Definition fourMiBWorld : World :=
  {| GetObject := fun _ _ => Done (zeros (4 * MiB), []);
     PutObject := PutObject demoWorld;
     CreateMultipartUpload := CreateMultipartUpload demoWorld;
     UploadPart := UploadPart demoWorld;
     CompleteMultipartUpload := CompleteMultipartUpload demoWorld;
     encodeHeader := encodeHeader demoWorld;
     applySedExpression := applySedExpression demoWorld;
     posixBits := posixBits demoWorld;
     findMinimumPartSize := findMinimumPartSize demoWorld;
     tarFormat := tarFormat demoWorld;
     now := now demoWorld |}.

(** ** Notions used in the further properties *)

(** No start of the group is closed. *)
Definition unclosedStarts (groupSizeLimit : Z) (group : list S3Obj) : Prop :=
  forall a b, group = a ++ b -> b <> [] -> ~ closed groupSizeLimit a.

(** The request that reads an object. *)
Definition getOf (o : S3Obj) : Event := EvGetObject (Bucket o) (Key o).

(** The objects of a list that have no inline data, and the requests that
    read them. *)
Definition fetched (objectList : list S3Obj) : list S3Obj :=
  filter (fun o => negb (0 <? blen (Data o))) objectList.

Definition gets (objectList : list S3Obj) : list Event :=
  map getOf (fetched objectList).

(** The reads of a trace. *)
Definition readsOf (t : list Event) : list Event :=
  filter (fun e => negb (is_write e)) t.

(** The operations of the client that the file calls. *)
Definition storeOps : list string :=
  ["GetObject"; "PutObject"; "CreateMultipartUpload"; "UploadPart";
   "CompleteMultipartUpload"]%string.

(** The errors that the steps after the two checks can return: an error of
    the client, of [applySedExpression] or of the tar writer. *)
Definition downstream (e : Error) : Prop :=
  match e with
  | ErrStore op _ => In op storeOps
  | ErrSed _ => True
  | ErrTar _ => True
  | ErrLargestObject => False
  | ErrPartBudget _ => False
  | PanicSliceBounds => False
  end.

(** A computation whose errors are all in [P]. *)
Definition raisesOnly (P : Error -> Prop) {A} (m : M A) : Prop :=
  forall e, outcome m = Err e -> P e.

(** The parts of the groups that can be tarred, each under the number of
    its group. *)
Fixpoint sentParts (W : World) (opts : S3TarS3Options) (ngroups i : Z)
    (groups : list (list S3Obj)) : list (Z * bytes) :=
  match groups with
  | [] => []
  | group :: rest =>
      match groupBuffer W opts (i =? ngroups - 1) group with
      | Some body => [(i + 1, body)]
      | None => []
      end ++ sentParts W opts ngroups (i + 1) rest
  end.

(** The small world, where the object of key [missing] cannot be read. *)
Definition failingWorld : World :=
  {| GetObject :=
       fun bucket key =>
         if String.eqb key "missing" then Failed "NoSuchKey"
         else GetObject demoWorld bucket key;
     PutObject := PutObject demoWorld;
     CreateMultipartUpload := CreateMultipartUpload demoWorld;
     UploadPart := UploadPart demoWorld;
     CompleteMultipartUpload := CompleteMultipartUpload demoWorld;
     encodeHeader := encodeHeader demoWorld;
     applySedExpression := applySedExpression demoWorld;
     posixBits := posixBits demoWorld;
     findMinimumPartSize := findMinimumPartSize demoWorld;
     tarFormat := tarFormat demoWorld;
     now := now demoWorld |}.

(** * utils.go, as its tests and the specification give it *)

Local Open Scope string_scope.

(** ** [ExtractBucketAndPath] *)

(** The part of [s] after the prefix [p], when [s] starts with [p]. *)
Fixpoint stripPrefix (p s : string) : option string :=
  match p, s with
  | EmptyString, _ => Some s
  | String a p', String b s' =>
      if Ascii.eqb a b then stripPrefix p' s' else None
  | String _ _, EmptyString => None
  end.

(** Cut at the first slash; the slash is in neither half. *)
Fixpoint cutAtSlash (s : string) : string * string :=
  match s with
  | EmptyString => (EmptyString, EmptyString)
  | String c rest =>
      if Ascii.eqb c "/" then (EmptyString, rest)
      else let '(bucket, path) := cutAtSlash rest in (String c bucket, path)
  end.

(** Modelled from the spec: [ExtractBucketAndPath] is in another file of
    the package; [utils_test.go] holds only its test.  Section 6, Path URI:
    the scheme is [s3], the authority is the bucket, the path is the key;
    parsing yields the bucket and the key without its leading slash; an
    input that does not begin with [s3://] is invalid and gives empty
    outputs. *)
Definition ExtractBucketAndPath (s3url : string) : string * string :=
  match stripPrefix "s3://" s3url with
  | Some rest => cutAtSlash rest
  | None => (EmptyString, EmptyString)
  end.

Fixpoint hasSlash (s : string) : bool :=
  match s with
  | EmptyString => false
  | String c rest => Ascii.eqb c "/" || hasSlash rest
  end.

(** ** [matchesRegexp] *)

Definition chars := list ascii.

Definition isMeta (c : ascii) : bool :=
  existsb (Ascii.eqb c) (list_ascii_of_string "\.+*?()|[]{}^$").

Definition isAscii (c : ascii) : bool := (nat_of_ascii c <? 128)%nat.

Definition newline : ascii := ascii_of_nat 10.

(** The translation of an exclude pattern to the text of a regular
    expression, character by character: the dot is escaped, [*] becomes
    [.*] and [?] becomes [.]; the other characters, [|] among them, are
    kept. *)
Definition translateChar (c : ascii) : chars :=
  if Ascii.eqb c "." then ["\"; "."]%char
  else if Ascii.eqb c "*" then ["."; "*"]%char
  else if Ascii.eqb c "?" then ["."]%char
  else [c].

Definition translate (pattern : chars) : chars :=
  flat_map translateChar pattern.

(** The regular expressions that such texts denote: alternatives of
    items, an item being a literal or any character but the newline, once
    or repeated. *)
Inductive atom : Type :=
| Lit (c : ascii)
| Any.

Definition item : Type := (atom * bool)%type.

Inductive RegexpError : Type :=
| MissingClosingBracket
| MissingRepetitionArgument
| NestedRepetition
| TrailingBackslash.

Inductive Compiled : Type :=
| Regexp (alternatives : list (list item))
| SyntaxError (e : RegexpError)
| NotModelled.

(** [regexp.Compile], on the texts above.  An opening bracket that no
    closing bracket follows is the syntax error "missing closing ]".  A
    text with a group, a closed bracket expression, an anchor, a counted or
    optional repetition or a class escape is outside this model. *)
Fixpoint parse (text : chars) (current : list item)
    (alternatives : list (list item)) : Compiled :=
  match text with
  | [] => Regexp (rev (rev current :: alternatives))
  | c :: rest =>
      if Ascii.eqb c "|" then parse rest [] (rev current :: alternatives)
      else if Ascii.eqb c "*" then
        match current with
        | (a, false) :: before => parse rest ((a, true) :: before) alternatives
        | (_, true) :: _ => SyntaxError NestedRepetition
        | [] => SyntaxError MissingRepetitionArgument
        end
      else if Ascii.eqb c "." then
        parse rest ((Any, false) :: current) alternatives
      else if Ascii.eqb c "\" then
        match rest with
        | [] => SyntaxError TrailingBackslash
        | c' :: rest' =>
            if isMeta c'
            then parse rest' ((Lit c', false) :: current) alternatives
            else NotModelled
        end
      else if Ascii.eqb c "[" then
        if existsb (Ascii.eqb "]") rest then NotModelled
        else SyntaxError MissingClosingBracket
      else if isMeta c then NotModelled
      else parse rest ((Lit c, false) :: current) alternatives
  end.

Definition compile (text : chars) : Compiled := parse text [] [].

Definition atomMatches (a : atom) (c : ascii) : bool :=
  match a with
  | Lit l => Ascii.eqb l c
  | Any => negb (Ascii.eqb c newline)
  end.

(** The items match a prefix of the input. *)
Fixpoint matchHere (items : list item) (input : chars) : bool :=
  match items with
  | [] => true
  | (a, false) :: rest =>
      match input with
      | [] => false
      | c :: input' => atomMatches a c && matchHere rest input'
      end
  | (a, true) :: rest =>
      (fix star (input : chars) : bool :=
         matchHere rest input
         || match input with
            | [] => false
            | c :: input' => atomMatches a c && star input'
            end) input
  end.

(** [MatchString] is not anchored: the items match somewhere. *)
Fixpoint matchAnywhere (items : list item) (input : chars) : bool :=
  matchHere items input
  || match input with
     | [] => false
     | _ :: input' => matchAnywhere items input'
     end.

Definition matchString (alternatives : list (list item)) (input : chars)
    : bool :=
  existsb (fun items => matchAnywhere items input) alternatives.

(** What [matchesRegexp] returns: a boolean with a nil error, or false
    with the error of [regexp.Compile]. *)
Inductive MatchResult : Type :=
| Matched (got : bool)
| CompileError (e : RegexpError)
| OutsideModel.

(** Modelled from the spec: [matchesRegexp] is in another file of the
    package; [utils_test.go] holds only its test.  Section 4.2: the exclude
    filter is a disjunction of glob-like patterns joined by [|], translated
    to regular expressions by escaping and by mapping [*] to [.*] and [?]
    to [.].  [TestMatchesRegexp] expects an error for the pattern [[*.txt],
    "invalid regex pattern": the bracket reaches [regexp.Compile] as it is,
    so the escaping is that of the dot.  Names and patterns are taken in
    ASCII, where a character is a byte. *)
Definition matchesRegexp (input pattern : string) : MatchResult :=
  let name := list_ascii_of_string input in
  let pat := list_ascii_of_string pattern in
  if forallb isAscii name && forallb isAscii pat then
    match compile (translate pat) with
    | Regexp alternatives => Matched (matchString alternatives name)
    | SyntaxError e => CompileError e
    | NotModelled => OutsideModel
    end
  else OutsideModel.






Local Close Scope string_scope.

(* ================================================================== *)
(** * Properties *)

(** ** Wrap-around *)

Lemma wrap64_small (z : Z) : in_int64 z -> wrap64 z = z.
Proof.
  unfold in_int64, wrap64. intros H.
  rewrite Z.mod_small; lia.
Qed.

Lemma wrap64_add_l (a b : Z) : wrap64 (wrap64 a + b) = wrap64 (a + b).
Proof.
  unfold wrap64.
  replace ((a + 2 ^ 63) mod 2 ^ 64 - 2 ^ 63 + b + 2 ^ 63)
    with ((a + 2 ^ 63) mod 2 ^ 64 + b) by lia.
  rewrite Zplus_mod_idemp_l.
  f_equal. f_equal. lia.
Qed.



Lemma wrap32_small (z : Z) : - 2 ^ 31 <= z < 2 ^ 31 -> wrap32 z = z.
Proof.
  unfold wrap32. intros H. rewrite Z.mod_small; lia.
Qed.

Lemma cumSize_from (group : list S3Obj) (acc : Z) :
  fold_left (fun a o => add64 a (Size o)) group (wrap64 acc)
  = wrap64 (acc + totalSize group).
Proof.
  revert acc. induction group as [| o group IH]; intros acc; simpl.
  - f_equal. lia.
  - unfold add64 at 2. rewrite wrap64_add_l, IH. f_equal. lia.
Qed.

Lemma cumSize_total (group : list S3Obj) :
  cumSize group = wrap64 (totalSize group).
Proof.
  unfold cumSize. change 0 with (wrap64 0) at 1.
  rewrite cumSize_from. reflexivity.
Qed.

Lemma cumSize_snoc (group : list S3Obj) (o : S3Obj) :
  cumSize (group ++ [o]) = add64 (cumSize group) (Size o).
Proof.
  unfold cumSize. rewrite fold_left_app. reflexivity.
Qed.

Lemma totalSize_app (g h : list S3Obj) :
  totalSize (g ++ h) = totalSize g + totalSize h.
Proof.
  induction g as [| o g IH]; simpl; lia.
Qed.

(** ** Grouping *)

Section Grouping.

Variable groupSizeLimit : Z.

Lemma splitLoop_concat (objectList : list S3Obj) :
  forall groups currentGroup currentSize,
    concat (splitLoop groupSizeLimit objectList groups currentGroup
                      currentSize)
    = concat groups ++ currentGroup ++ objectList.
Proof.
  induction objectList as [| o rest IH]; intros groups cur sz; simpl.
  - destruct cur as [| c cur]; simpl.
    + now rewrite app_nil_r.
    + rewrite concat_app. simpl. now rewrite !app_nil_r.
  - destruct (_ && _).
    + rewrite IH, concat_app. simpl.
      rewrite app_nil_r, <- !app_assoc. reflexivity.
    + rewrite IH, <- !app_assoc. reflexivity.
Qed.

Lemma splitLoop_nonempty (objectList : list S3Obj) :
  forall groups currentGroup currentSize,
    Forall (fun g => g <> []) groups ->
    Forall (fun g => g <> [])
      (splitLoop groupSizeLimit objectList groups currentGroup currentSize).
Proof.
  induction objectList as [| o rest IH]; intros groups cur sz Hgs; simpl.
  - destruct cur as [| c cur]; simpl; auto.
    apply Forall_app. split; auto.
    constructor; [discriminate | constructor].
  - destruct (_ && _); apply IH; auto.
    apply Forall_app. split; auto.
    constructor; [| constructor].
    destruct cur; discriminate.
Qed.

(** Every group but the last was closed by the size test. *)
Lemma splitLoop_closed (objectList : list S3Obj) :
  forall groups currentGroup currentSize,
    Forall (closed groupSizeLimit) groups ->
    currentSize = cumSize currentGroup ->
    Forall (closed groupSizeLimit)
      (removelast
         (splitLoop groupSizeLimit objectList groups currentGroup
                    currentSize)).
Proof.
  induction objectList as [| o rest IH]; intros groups cur sz Hgs Hsz; simpl.
  - destruct cur as [| c cur]; simpl.
    + destruct groups as [| g groups] using rev_ind; [constructor |].
      rewrite removelast_last.
      apply Forall_app in Hgs. tauto.
    + now rewrite removelast_last.
  - destruct (_ && _) eqn:Htest.
    + apply IH; [| reflexivity].
      apply Forall_app. split; auto.
      constructor; [| constructor].
      apply andb_true_iff in Htest. destruct Htest as [H1 H2].
      apply Z.ltb_lt in H1, H2.
      unfold closed. rewrite cumSize_snoc, <- Hsz. tauto.
    + apply IH; auto.
      rewrite cumSize_snoc, Hsz. reflexivity.
Qed.

End Grouping.

Lemma splitSlice_concat (groupSizeLimit : Z) (objectList : list S3Obj) :
  concat (splitSliceBySizeLimit groupSizeLimit objectList) = objectList.
Proof.
  unfold splitSliceBySizeLimit. rewrite splitLoop_concat. reflexivity.
Qed.


(** C10.  For every size limit and every object list, the groups returned
    by [splitSliceBySizeLimit], concatenated in order, are the input list:
    no entry is dropped, duplicated or moved; and no returned group is
    empty. *)
Theorem splitSliceBySizeLimit_partition
    (groupSizeLimit : Z) (objectList : list S3Obj) :
  concat (splitSliceBySizeLimit groupSizeLimit objectList) = objectList
  /\ Forall (fun group => group <> [])
            (splitSliceBySizeLimit groupSizeLimit objectList).
Proof.
  unfold splitSliceBySizeLimit. split.
  - rewrite splitLoop_concat. reflexivity.
  - apply splitLoop_nonempty. constructor.
Qed.

(** C5, as the code has it.  Every group that [splitSliceBySizeLimit]
    returns before the last one was closed by the size test: its cumulative
    size is above the group ceiling and above the minimum part size.  The
    last group is what remains and is returned as it is. *)
Theorem splitSliceBySizeLimit_closed_but_last
    (groupSizeLimit : Z) (objectList : list S3Obj) :
  Forall (closed groupSizeLimit)
         (removelast (splitSliceBySizeLimit groupSizeLimit objectList)).
Proof.
  unfold splitSliceBySizeLimit.
  apply splitLoop_closed; [constructor | reflexivity].
Qed.

(** C5, as the specification states it, fails: a 6 MiB object followed by
    a 1-byte object gives two groups, and the second, of one byte, is not
    merged into the first. *)
Lemma splitSliceBySizeLimit_short_trailing_group :
  splitSliceBySizeLimit fileSizeMin [sized "a" (6 * MiB); sized "b" 1]
  = [[sized "a" (6 * MiB)]; [sized "b" 1]]
  /\ ~ trailingGroupMeetsMinimum
       (splitSliceBySizeLimit fileSizeMin
          [sized "a" (6 * MiB); sized "b" 1]).
Proof.
  split; [reflexivity |].
  intros H.
  specialize (H [[sized "a" (6 * MiB)]] [sized "b" 1] eq_refl).
  assert (Hne : [[sized "a" (6 * MiB)]] <> []) by discriminate.
  specialize (H Hne). vm_compute in H. apply H. reflexivity.
Qed.

(** ** Computations *)

Lemma outcome_bind {A B} (m : M A) (k : A -> M B) :
  outcome (bind m k)
  = match outcome m with
    | Ok a => outcome (k a)
    | Err e => Err e
    end.
Proof.
  destruct m as [t [a | e]]; simpl; [| reflexivity].
  destruct (k a); reflexivity.
Qed.

Lemma trace_bind {A B} (m : M A) (k : A -> M B) :
  trace (bind m k)
  = trace m ++ match outcome m with
               | Ok a => trace (k a)
               | Err _ => []
               end.
Proof.
  destruct m as [t [a | e]]; simpl.
  - destruct (k a); reflexivity.
  - now rewrite app_nil_r.
Qed.

Lemma outcome_lift {A} (r : result A) : outcome (lift r) = r.
Proof. reflexivity. Qed.

Lemma trace_lift {A} (r : result A) : trace (lift r) = [].
Proof. reflexivity. Qed.

Lemma run_eta {A} (m : M A) : m = (trace m, outcome m).
Proof. destruct m; reflexivity. Qed.

Lemma writes_app (t u : list Event) : writes (t ++ u) = writes t ++ writes u.
Proof. apply filter_app. Qed.

Lemma uploadedParts_app (t u : list Event) :
  uploadedParts (t ++ u) = uploadedParts t ++ uploadedParts u.
Proof.
  induction t as [| e t IH]; simpl; [reflexivity |].
  destruct e; simpl; now rewrite ?IH.
Qed.

Lemma archiveOf_app (t u : list Event) :
  archiveOf (t ++ u) = archiveOf t ++ archiveOf u.
Proof.
  unfold archiveOf. now rewrite map_app, concat_app.
Qed.

Lemma readsOnly_writes (t : list Event) : readsOnly t -> writes t = [].
Proof.
  induction 1 as [| e t He _ IH]; simpl; [reflexivity |].
  now rewrite He.
Qed.

Lemma readsOnly_uploadedParts (t : list Event) :
  readsOnly t -> uploadedParts t = [].
Proof.
  induction 1 as [| e t He _ IH]; simpl; [reflexivity |].
  destruct e; simpl in *; try discriminate; assumption.
Qed.

Lemma readsOnly_archiveOf (t : list Event) : readsOnly t -> archiveOf t = [].
Proof.
  unfold archiveOf.
  induction 1 as [| e t He _ IH]; simpl; [reflexivity |].
  destruct e; simpl in *; try discriminate; assumption.
Qed.

Lemma readsOnly_app (t u : list Event) :
  readsOnly t -> readsOnly u -> readsOnly (t ++ u).
Proof. intros; apply Forall_app; auto. Qed.

Lemma readsOnly_bind {A B} (m : M A) (k : A -> M B) :
  readsOnly (trace m) -> (forall a, readsOnly (trace (k a))) ->
  readsOnly (trace (bind m k)).
Proof.
  intros Hm Hk. rewrite trace_bind. apply readsOnly_app; [assumption |].
  destruct (outcome m); [apply Hk | constructor].
Qed.

(** Case analysis on the outcome a goal branches on. *)
Ltac case_outcome :=
  match goal with
  | |- context [match ?x with Ok _ => _ | Err _ => _ end] =>
      let a := fresh "a" in
      let e := fresh "e" in
      let E := fresh "E" in
      destruct x as [a | e] eqn:E
  end.

(** ** Bytes *)

Lemma blen_app (a b : bytes) : blen (a ++ b) = blen a + blen b.
Proof. unfold blen. rewrite length_app. lia. Qed.

Lemma blen_nonneg (a : bytes) : 0 <= blen a.
Proof. unfold blen. lia. Qed.

Lemma blen_zeros (n : Z) : 0 <= n -> blen (zeros n) = n.
Proof. intros H. unfold blen, zeros. rewrite repeat_length. lia. Qed.

Lemma zeros_0 : zeros 0 = [].
Proof. reflexivity. Qed.

Lemma blen_trailer : blen trailer = 1024.
Proof.
  unfold trailer. rewrite blen_app, !blen_zeros; unfold blockSize; lia.
Qed.

Lemma blockPadding_mod (n : Z) : blockPadding n = (- n) mod 512.
Proof.
  unfold blockPadding, blockSize.
  change (512 - 1) with (Z.ones 9).
  rewrite Z.land_ones by lia. reflexivity.
Qed.

Lemma blockPadding_range (n : Z) : 0 <= blockPadding n < 512.
Proof. rewrite blockPadding_mod. apply Z.mod_pos_bound. lia. Qed.

Lemma blockPadding_multiple (n : Z) : n mod 512 = 0 -> blockPadding n = 0.
Proof.
  intros H. rewrite blockPadding_mod.
  apply Z.mod_divide in H; [| lia].
  apply Z.mod_divide; [lia |].
  now apply Z.divide_opp_r.
Qed.

(** ** The tar writer and [tarGroup] *)

Section TarFacts.

Variable W : World.
Variable opts : S3TarS3Options.

Lemma Flush_ok (tw tw1 : Writer) :
  Flush tw = Ok tw1 <->
  nb tw <= 0 /\ tw1 = mkWriter (flushed tw) (nb tw) 0.
Proof.
  unfold Flush, flushed.
  destruct (0 <? nb tw) eqn:H.
  - apply Z.ltb_lt in H. split; [discriminate | lia].
  - apply Z.ltb_ge in H. split.
    + intros E. inversion E. auto.
    + intros [_ ->]. reflexivity.
Qed.

Lemma tarEntry_trace (tw : Writer) (o : S3Obj) :
  readsOnly (trace (tarEntry W opts tw o)).
Proof.
  unfold tarEntry. apply readsOnly_bind.
  - destruct (0 <? blen (Data o)); simpl.
    + constructor.
    + repeat constructor.
  - intros [r md]. apply readsOnly_bind; [constructor |].
    intros name. apply readsOnly_bind; [constructor |].
    intros tw1. constructor.
Qed.

Lemma tarLoop_trace (objectList : list S3Obj) :
  forall tw, readsOnly (trace (tarLoop W opts tw objectList)).
Proof.
  induction objectList as [| o rest IH]; intros tw; simpl.
  - constructor.
  - apply readsOnly_bind; [apply tarEntry_trace | apply IH].
Qed.

Lemma tarGroup_trace (objectList : list S3Obj) :
  readsOnly (trace (tarGroup W objectList opts)).
Proof.
  unfold tarGroup.
  apply readsOnly_bind; [apply tarLoop_trace |].
  intros tw. apply readsOnly_bind; [constructor |].
  intros tw1. apply readsOnly_bind; [constructor |].
  intros tw2. constructor.
Qed.

Lemma WriteHeader_ok (tw tw1 : Writer) (h : Header) :
  WriteHeader W tw h = Ok tw1 <->
  nb tw <= 0 /\
  exists blk, encodeHeader W h = Done blk /\
    tw1 = mkWriter (flushed tw ++ blk) (HSize h) (blockPadding (HSize h)).
Proof.
  unfold WriteHeader.
  destruct (Flush tw) as [tw0 | e] eqn:HF.
  - apply Flush_ok in HF. destruct HF as [Hnb ->]. simpl.
    destruct (encodeHeader W h) as [blk | msg]; simpl.
    + split.
      * intros E. inversion E. eauto.
      * intros [_ [blk' [E ->]]]. inversion E. reflexivity.
    + split; [discriminate |].
      intros [_ [blk' [E _]]]. discriminate.
  - split; [discriminate |].
    intros [Hnb _].
    assert (HF' : Flush tw = Ok (mkWriter (flushed tw) (nb tw) 0))
      by (apply Flush_ok; auto).
    congruence.
Qed.

Lemma ioCopy_ok (tw tw1 : Writer) (r : bytes) :
  ioCopy tw r = Ok tw1 <->
  (r = [] \/ blen r <= nb tw) /\
  tw1 = mkWriter (buf tw ++ r) (nb tw - blen r) (pad tw).
Proof.
  destruct r as [| b r]; simpl.
  - rewrite app_nil_r. replace (nb tw - blen []) with (nb tw)
      by (unfold blen; simpl; lia).
    destruct tw as [bf n p]; simpl. split.
    + intros E. inversion E. auto.
    + intros [_ ->]. reflexivity.
  - unfold Write.
    destruct (nb tw <? blen (b :: r)) eqn:H.
    + apply Z.ltb_lt in H. split; [discriminate |].
      intros [[E | Hle] _]; [discriminate | lia].
    + apply Z.ltb_ge in H. split.
      * intros E. inversion E. auto.
      * intros [_ ->]. reflexivity.
Qed.

Lemma fetch_ok (o : S3Obj) (x : bytes * metadata) :
  outcome (if 0 <? blen (Data o) then ret (Data o, [])
           else downloadS3Data W o) = Ok x
  <-> payloadOf W o = Some x.
Proof.
  unfold payloadOf, downloadS3Data.
  destruct (0 <? blen (Data o)); simpl.
  - split; intros E; inversion E; reflexivity.
  - destruct (GetObject W (Bucket o) (Key o)); simpl;
      split; intros E; inversion E; reflexivity.
Qed.

Lemma entryHeader_size (name : string) (o : S3Obj) (md : metadata) :
  HSize (entryHeader W opts name o md) = Size o.
Proof.
  unfold entryHeader.
  destruct (PreservePOSIXMetadata opts); [| reflexivity].
  unfold setHeaderPermissions.
  destruct (posixBits W md) as [[[u g] m] |]; reflexivity.
Qed.

(** One turn of the loop goes through exactly when the previous entry was
    written in full, the payload and the header are there, and the payload
    is not longer than the size of the header. *)
Lemma tarEntry_ok (tw tw1 : Writer) (o : S3Obj) :
  outcome (tarEntry W opts tw o) = Ok tw1 <->
  nb tw <= 0 /\
  exists payload md blk,
    payloadOf W o = Some (payload, md) /\
    headerBlocks W opts o md = Some blk /\
    (payload = [] \/ blen payload <= Size o) /\
    tw1 = mkWriter ((flushed tw ++ blk) ++ payload)
                   (Size o - blen payload) (blockPadding (Size o)).
Proof.
  unfold tarEntry, headerBlocks, headerOf. rewrite outcome_bind.
  split.
  - case_outcome; [| discriminate].
    destruct a as [r md]. apply fetch_ok in E.
    rewrite outcome_bind, outcome_lift.
    destruct (applySedExpression W _ _) as [name | msg];
      cbv beta iota delta [of_sed]; [| discriminate].
    rewrite outcome_bind, outcome_lift.
    case_outcome; [| discriminate].
    rewrite outcome_lift. intros Hcopy.
    apply WriteHeader_ok in E0. destruct E0 as [Hnb [blk [Henc ->]]].
    apply ioCopy_ok in Hcopy. simpl in Hcopy. destruct Hcopy as [Hfit ->].
    rewrite entryHeader_size in *.
    split; [assumption |].
    exists r, md, blk. rewrite Henc. auto.
  - intros [Hnb [payload [md [blk [Hp [Hb [Hfit ->]]]]]]].
    apply fetch_ok in Hp. rewrite Hp.
    rewrite outcome_bind, outcome_lift.
    destruct (applySedExpression W _ _) as [name | msg]; [| discriminate].
    cbv beta iota delta [of_sed].
    rewrite outcome_bind, outcome_lift.
    destruct (encodeHeader W _) as [blk' | msg] eqn:Henc; [| discriminate].
    inversion Hb; subst blk'.
    assert (HW : WriteHeader W tw (entryHeader W opts name o md)
                 = Ok (mkWriter (flushed tw ++ blk) (Size o)
                                (blockPadding (Size o)))).
    { apply WriteHeader_ok. rewrite entryHeader_size. eauto. }
    rewrite HW, outcome_lift.
    apply ioCopy_ok. simpl. auto.
Qed.

Lemma wellSized_fits (o : S3Obj) (payload : bytes) :
  wellSized o payload = true <->
  (payload = [] \/ blen payload <= Size o) /\ Size o - blen payload <= 0.
Proof.
  unfold wellSized. destruct payload as [| b payload].
  - rewrite Z.leb_le. unfold blen; simpl.
    split; [intros H; split; [auto | lia] | intros [_ H]; lia].
  - rewrite Z.eqb_eq. split.
    + intros H. split; [right |]; lia.
    + intros [[E | H1] H2]; [discriminate | lia].
Qed.

Lemma member_some (o : S3Obj) (m : bytes) :
  member W opts o = Some m <->
  exists payload md blk,
    payloadOf W o = Some (payload, md) /\
    headerBlocks W opts o md = Some blk /\
    wellSized o payload = true /\
    m = blk ++ payload ++ zeros (blockPadding (Size o)).
Proof.
  unfold member. split.
  - destruct (payloadOf W o) as [[payload md] |]; [| discriminate].
    destruct (headerBlocks W opts o md) as [blk |] eqn:Hb; [| discriminate].
    destruct (wellSized o payload) eqn:Hw; [| discriminate].
    intros E. inversion E. exists payload, md, blk. auto.
  - intros [payload [md [blk [-> [-> [-> ->]]]]]]. reflexivity.
Qed.

(** The loop of [tarGroup], read backwards from a writer that can be
    flushed. *)
Lemma tarLoop_ok_inv (objectList : list S3Obj) :
  forall tw tw',
    outcome (tarLoop W opts tw objectList) = Ok tw' ->
    nb tw' <= 0 ->
    nb tw <= 0 /\
    exists ms, members W opts objectList = Some ms /\
               flushed tw' = flushed tw ++ ms.
Proof.
  induction objectList as [| o rest IH]; intros tw tw'; simpl.
  - intros E Hnb. inversion E; subst tw'. split; [assumption |].
    exists []. now rewrite app_nil_r.
  - rewrite outcome_bind. case_outcome; [| discriminate].
    intros Hrest Hnb'.
    apply tarEntry_ok in E.
    destruct E as [Hnb [payload [md [blk [Hp [Hb [Hfit ->]]]]]]].
    destruct (IH _ _ Hrest Hnb') as [Hnb1 [ms [Hms Hfl]]].
    simpl in Hnb1. split; [assumption |].
    assert (Hm : member W opts o
                 = Some (blk ++ payload ++ zeros (blockPadding (Size o)))).
    { apply member_some. exists payload, md, blk.
      repeat split; try assumption. apply wellSized_fits. auto. }
    rewrite Hm, Hms. eexists. split; [reflexivity |].
    rewrite Hfl. unfold flushed at 1. simpl.
    now rewrite <- !app_assoc.
Qed.

Lemma tarLoop_ok_intro (objectList : list S3Obj) :
  forall tw ms,
    nb tw <= 0 ->
    members W opts objectList = Some ms ->
    exists tw',
      outcome (tarLoop W opts tw objectList) = Ok tw' /\
      nb tw' <= 0 /\ flushed tw' = flushed tw ++ ms.
Proof.
  induction objectList as [| o rest IH]; intros tw ms Hnb; simpl.
  - intros E. inversion E. exists tw. now rewrite app_nil_r.
  - destruct (member W opts o) as [m |] eqn:Hm; [| discriminate].
    destruct (members W opts rest) as [ms' |] eqn:Hms; [| discriminate].
    intros E. inversion E; subst ms.
    apply member_some in Hm.
    destruct Hm as [payload [md [blk [Hp [Hb [Hw ->]]]]]].
    apply wellSized_fits in Hw. destruct Hw as [Hfit Hfull].
    rewrite outcome_bind.
    assert (HE : outcome (tarEntry W opts tw o)
                 = Ok (mkWriter ((flushed tw ++ blk) ++ payload)
                         (Size o - blen payload) (blockPadding (Size o)))).
    { apply tarEntry_ok. split; [assumption |].
      exists payload, md, blk. auto. }
    rewrite HE.
    destruct (IH (mkWriter ((flushed tw ++ blk) ++ payload)
                    (Size o - blen payload) (blockPadding (Size o)))
                 ms' Hfull eq_refl) as [tw' [Hout [Hnb' Hfl]]].
    exists tw'. repeat split; try assumption.
    rewrite Hfl. unfold flushed at 1. simpl.
    now rewrite <- !app_assoc.
Qed.

(** [tarGroup] returns the single-pass tar of its list, and returns at all
    exactly when every member of the list can be written. *)
Lemma tarGroup_ok (objectList : list S3Obj) (data : bytes) :
  outcome (tarGroup W objectList opts) = Ok data <->
  singlePassTar W opts objectList = Some data.
Proof.
  unfold tarGroup, singlePassTar.
  rewrite outcome_bind. split.
  - case_outcome; [| discriminate].
    rewrite outcome_bind, outcome_lift.
    destruct (Flush a) as [tw1 | e1] eqn:HF; [| discriminate].
    apply Flush_ok in HF. destruct HF as [Hnb ->].
    rewrite outcome_bind, outcome_lift.
    unfold Close.
    destruct (Flush _) as [tw2 | e2] eqn:HF2; [| discriminate].
    apply Flush_ok in HF2. simpl in HF2. destruct HF2 as [_ ->].
    intros Hd. inversion Hd; subst data. clear Hd.
    destruct (tarLoop_ok_inv _ _ _ E Hnb) as [_ [ms [Hms Hfl]]].
    rewrite Hms. f_equal. simpl.
    rewrite Hfl. unfold flushed, trailer. simpl.
    now rewrite ?zeros_0, ?app_nil_r, <- ?app_assoc.
  - destruct (members W opts objectList) as [ms |] eqn:Hms; [| discriminate].
    intros Hd. inversion Hd; subst data. clear Hd.
    destruct (tarLoop_ok_intro objectList NewWriter ms)
      as [tw' [Hout [Hnb Hfl]]];
      [simpl; lia | assumption |].
    rewrite Hout, outcome_bind, outcome_lift.
    assert (HF : Flush tw' = Ok (mkWriter (flushed tw') (nb tw') 0))
      by (apply Flush_ok; auto).
    rewrite HF, outcome_bind, outcome_lift.
    unfold Close.
    assert (HF2 : Flush (mkWriter (flushed tw') (nb tw') 0)
                  = Ok (mkWriter (flushed (mkWriter (flushed tw') (nb tw') 0))
                                 (nb tw') 0))
      by (apply Flush_ok; auto).
    rewrite HF2. simpl. f_equal.
    unfold flushed at 1. simpl. rewrite ?zeros_0, ?app_nil_r.
    rewrite Hfl. unfold flushed, trailer. simpl.
    now rewrite ?zeros_0, ?app_nil_r, <- ?app_assoc.
Qed.

End TarFacts.

(** ** The size check *)

Lemma findLargestLoop_above (objectList : list S3Obj) :
  forall largest key bound,
    bound < fst (findLargestLoop objectList largest key) <->
    bound < largest \/ Exists (fun o => bound < Size o) objectList.
Proof.
  induction objectList as [| o rest IH]; intros largest key bound; simpl.
  - split; [auto |]. intros [H | H]; [assumption | inversion H].
  - destruct (largest <? Size o) eqn:Hlt; rewrite IH, Exists_cons.
    + apply Z.ltb_lt in Hlt. split.
      * intros [H | H]; auto.
      * intros [H | [H | H]]; auto. left. lia.
    + apply Z.ltb_ge in Hlt. split.
      * intros [H | H]; auto.
      * intros [H | [H | H]]; auto. left. lia.
Qed.

Lemma findLargestObject_above (objectList : list S3Obj) (bound : Z) :
  0 <= bound ->
  (bound < findLargestObject objectList <->
   Exists (fun o => bound < Size o) objectList).
Proof.
  intros Hb. unfold findLargestObject. rewrite findLargestLoop_above.
  split; [intros [H | H]; [lia | assumption] | auto].
Qed.


(** ** The branches of [buildInMemoryConcat] *)

Section Branches.

Variable W : World.
Variable objectList : list S3Obj.
Variable estimatedSize : Z.
Variable opts : S3TarS3Options.

Let run := buildInMemoryConcat W objectList estimatedSize opts.
Let groups :=
  splitSliceBySizeLimit
    (findMinimumPartSize W estimatedSize (UserMaxPartSize opts)) objectList.

Lemma run_too_large :
  partSizeMax < findLargestObject objectList ->
  run = ([], Err ErrLargestObject).
Proof.
  intros H. unfold run, buildInMemoryConcat.
  apply Z.ltb_lt in H. rewrite H. reflexivity.
Qed.

Lemma run_small :
  findLargestObject objectList <= partSizeMax ->
  estimatedSize < fileSizeMin ->
  run = bind (tarGroup W objectList opts)
             (fun data => uploadObject W (DstBucket opts) (DstKey opts)
                                       data opts).
Proof.
  intros H1 H2. unfold run, buildInMemoryConcat.
  apply Z.ltb_ge in H1. apply Z.ltb_lt in H2. rewrite H1, H2. reflexivity.
Qed.

Lemma run_over_budget :
  findLargestObject objectList <= partSizeMax ->
  fileSizeMin <= estimatedSize ->
  maxPartNumLimit < Z.of_nat (length groups) ->
  run = ([], Err (ErrPartBudget (Z.of_nat (length groups)))).
Proof.
  intros H1 H2 H3. unfold run, buildInMemoryConcat.
  apply Z.ltb_ge in H1, H2. apply Z.ltb_lt in H3.
  rewrite H1, H2. fold groups. rewrite H3. reflexivity.
Qed.

Lemma run_multipart :
  findLargestObject objectList <= partSizeMax ->
  fileSizeMin <= estimatedSize ->
  Z.of_nat (length groups) <= maxPartNumLimit ->
  run =
  bind (emit (EvCreateMultipartUpload (DstBucket opts) (DstKey opts))
             (of_store "CreateMultipartUpload"
                (CreateMultipartUpload W (DstBucket opts) (DstKey opts))))
    (fun uploadId =>
       bind (processGroups W opts uploadId groups)
         (fun done =>
            bind (emit (EvCompleteMultipartUpload uploadId (DstBucket opts)
                          (DstKey opts) (map fst done))
                    (of_store "CompleteMultipartUpload"
                       (CompleteMultipartUpload W uploadId (DstBucket opts)
                          (DstKey opts) (map fst done))))
              (fun x =>
                 match x with
                 | (bucket, key, etag) =>
                     ret (mkS3Obj bucket key etag
                            (sumSlice (map snd done)) (now W) [])
                 end))).
Proof.
  intros H1 H2 H3. unfold run, buildInMemoryConcat.
  apply Z.ltb_ge in H1, H2, H3.
  rewrite H1, H2. fold groups. rewrite H3. reflexivity.
Qed.

End Branches.

(** ** Where the size error can come from *)

Lemma notTooLarge_bind {A B} (m : M A) (k : A -> M B) :
  notTooLarge m -> (forall a, notTooLarge (k a)) -> notTooLarge (bind m k).
Proof.
  unfold notTooLarge. intros Hm Hk. rewrite outcome_bind.
  destruct (outcome m) as [a | e]; [apply Hk | congruence].
Qed.

Lemma notTooLarge_ret {A} (a : A) : notTooLarge (ret a).
Proof. discriminate. Qed.

Lemma notTooLarge_store {A} (ev : Event) (op : string) (r : reply A) :
  notTooLarge (emit ev (of_store op r)).
Proof. destruct r; discriminate. Qed.

Lemma notTooLarge_sed {A} (r : reply A) : notTooLarge (lift (of_sed r)).
Proof. destruct r; discriminate. Qed.

Lemma notTooLarge_Flush (tw : Writer) : notTooLarge (lift (Flush tw)).
Proof. unfold Flush. destruct (0 <? nb tw); discriminate. Qed.

Lemma notTooLarge_waitAll {A} (tasks : list (M A)) :
  Forall notTooLarge tasks -> notTooLarge (waitAll tasks).
Proof.
  unfold notTooLarge.
  induction 1 as [| [t r] tasks Hr _ IH]; simpl; [discriminate |].
  destruct (waitAll tasks) as [t' rs]. simpl in *.
  destruct r as [a | e]; [| congruence].
  destruct rs as [l | e]; [discriminate | congruence].
Qed.

Section SizeError.

Variable W : World.
Variable opts : S3TarS3Options.

Lemma notTooLarge_WriteHeader (tw : Writer) (h : Header) :
  notTooLarge (lift (WriteHeader W tw h)).
Proof.
  unfold WriteHeader.
  pose proof (notTooLarge_Flush tw) as HF. unfold notTooLarge in *.
  rewrite outcome_lift in *.
  destruct (Flush tw) as [tw1 | e]; [| congruence].
  destruct (encodeHeader W h); discriminate.
Qed.

Lemma notTooLarge_ioCopy (tw : Writer) (r : bytes) :
  notTooLarge (lift (ioCopy tw r)).
Proof.
  destruct r as [| b r]; simpl; [discriminate |].
  unfold Write. destruct (nb tw <? blen (b :: r)); discriminate.
Qed.

Lemma notTooLarge_Close (tw : Writer) : notTooLarge (lift (Close tw)).
Proof.
  unfold Close.
  pose proof (notTooLarge_Flush tw) as HF. unfold notTooLarge in *.
  rewrite outcome_lift in *.
  destruct (Flush tw); [discriminate | congruence].
Qed.

Lemma notTooLarge_tarEntry (tw : Writer) (o : S3Obj) :
  notTooLarge (tarEntry W opts tw o).
Proof.
  unfold tarEntry. apply notTooLarge_bind.
  - destruct (0 <? blen (Data o));
      [apply notTooLarge_ret | apply notTooLarge_store].
  - intros [r md]. apply notTooLarge_bind; [apply notTooLarge_sed |].
    intros name. apply notTooLarge_bind; [apply notTooLarge_WriteHeader |].
    intros tw1. apply notTooLarge_ioCopy.
Qed.

Lemma notTooLarge_tarLoop (objectList : list S3Obj) :
  forall tw, notTooLarge (tarLoop W opts tw objectList).
Proof.
  induction objectList as [| o rest IH]; intros tw; simpl.
  - apply notTooLarge_ret.
  - apply notTooLarge_bind; [apply notTooLarge_tarEntry | apply IH].
Qed.

Lemma notTooLarge_tarGroup (objectList : list S3Obj) :
  notTooLarge (tarGroup W objectList opts).
Proof.
  unfold tarGroup.
  apply notTooLarge_bind; [apply notTooLarge_tarLoop |].
  intros tw. apply notTooLarge_bind; [apply notTooLarge_Flush |].
  intros tw1. apply notTooLarge_bind; [apply notTooLarge_Close |].
  intros tw2. apply notTooLarge_ret.
Qed.

Lemma notTooLarge_groupTask (uploadId : string) (n i : Z)
    (group : list S3Obj) :
  notTooLarge (groupTask W opts uploadId n i group).
Proof.
  unfold groupTask.
  apply notTooLarge_bind; [apply notTooLarge_tarGroup |].
  intros data. apply notTooLarge_bind.
  - destruct (negb _); [| apply notTooLarge_ret].
    unfold dropTrailer. destruct (_ <? 0); discriminate.
  - intros data1. apply notTooLarge_bind.
    + apply notTooLarge_store.
    + intros [etag sha]. apply notTooLarge_ret.
Qed.

Lemma notTooLarge_groupTasks (uploadId : string) (n : Z)
    (groups : list (list S3Obj)) :
  forall i, Forall notTooLarge (groupTasks W opts uploadId n i groups).
Proof.
  induction groups as [| g rest IH]; intros i; simpl; constructor.
  - apply notTooLarge_groupTask.
  - apply IH.
Qed.

Lemma partSizeMax_nonneg : 0 <= partSizeMax.
Proof. unfold partSizeMax, GiB. lia. Qed.

Lemma notTooLarge_run (objectList : list S3Obj) (estimatedSize : Z) :
  findLargestObject objectList <= partSizeMax ->
  notTooLarge (buildInMemoryConcat W objectList estimatedSize opts).
Proof.
  intros Hle.
  destruct (Z.lt_ge_cases estimatedSize fileSizeMin) as [Hsmall | Hbig].
  - rewrite run_small by assumption.
    apply notTooLarge_bind; [apply notTooLarge_tarGroup |].
    intros data. unfold uploadObject.
    apply notTooLarge_bind; [apply notTooLarge_store |].
    intros etag. apply notTooLarge_ret.
  - destruct (Z.lt_ge_cases maxPartNumLimit
                (Z.of_nat (length (splitSliceBySizeLimit
                   (findMinimumPartSize W estimatedSize
                      (UserMaxPartSize opts)) objectList))))
      as [Hover | Hfit].
    + rewrite run_over_budget by assumption. discriminate.
    + rewrite run_multipart by assumption.
      apply notTooLarge_bind; [apply notTooLarge_store |].
      intros uploadId. apply notTooLarge_bind.
      * apply notTooLarge_waitAll, notTooLarge_groupTasks.
      * intros done. apply notTooLarge_bind; [apply notTooLarge_store |].
        intros [[bucket key] etag]. apply notTooLarge_ret.
Qed.

End SizeError.

(** C3.  [buildInMemoryConcat] ends on the member-too-large error exactly
    when some member of the list is larger than [partSizeMax] (5 GiB): a
    member of exactly [partSizeMax] does not raise it.  When it ends on
    that error it has sent no request at all, so neither a [PutObject] nor
    a [CreateMultipartUpload]. *)
Theorem member_too_large_iff
    (W : World) (objectList : list S3Obj) (estimatedSize : Z)
    (opts : S3TarS3Options) :
  (outcome (buildInMemoryConcat W objectList estimatedSize opts)
   = Err ErrLargestObject
   <-> Exists (fun o => partSizeMax < Size o) objectList)
  /\ (Exists (fun o => partSizeMax < Size o) objectList ->
      trace (buildInMemoryConcat W objectList estimatedSize opts) = []).
Proof.
  split; [split |].
  - intros Hout.
    apply findLargestObject_above; [apply partSizeMax_nonneg |].
    destruct (Z.lt_ge_cases partSizeMax (findLargestObject objectList))
      as [H | H]; [assumption |].
    exfalso. now apply (notTooLarge_run W opts objectList estimatedSize).
  - intros Hex.
    apply findLargestObject_above in Hex; [| apply partSizeMax_nonneg].
    now rewrite run_too_large.
  - intros Hex.
    apply findLargestObject_above in Hex; [| apply partSizeMax_nonneg].
    now rewrite run_too_large.
Qed.

(** A member of exactly 5 GiB passes the size check; one more byte does
    not. *)
Example member_of_partSizeMax_accepted :
  outcome (buildInMemoryConcat demoWorld [sized "big" partSizeMax]
                               partSizeMax demoOpts)
  <> Err ErrLargestObject
  /\ buildInMemoryConcat demoWorld [sized "big" (partSizeMax + 1)]
                         (partSizeMax + 1) demoOpts
     = ([], Err ErrLargestObject).
Proof.
  split; [| reflexivity].
  apply notTooLarge_run. vm_compute. discriminate.
Qed.

(** ** The writes of a trace *)

Lemma uploadedParts_writes (t : list Event) :
  uploadedParts (writes t) = uploadedParts t.
Proof.
  induction t as [| e t IH]; simpl; [reflexivity |].
  destruct e; simpl; now rewrite ?IH.
Qed.

Lemma archiveOf_writes (t : list Event) : archiveOf (writes t) = archiveOf t.
Proof.
  unfold archiveOf.
  induction t as [| e t IH]; simpl; [reflexivity |].
  destruct e; simpl; now rewrite ?IH.
Qed.

Lemma uploadedParts_uploads (uploadId bucket key : string)
    (parts : list (Z * bytes)) :
  uploadedParts (map (uploadOf uploadId bucket key) parts) = parts.
Proof.
  induction parts as [| [n b] parts IH]; simpl; [reflexivity |].
  now rewrite IH.
Qed.

Lemma archiveOf_uploads (uploadId bucket key : string)
    (parts : list (Z * bytes)) :
  archiveOf (map (uploadOf uploadId bucket key) parts)
  = concat (map snd parts).
Proof.
  unfold archiveOf.
  induction parts as [| [n b] parts IH]; simpl; [reflexivity |].
  now rewrite IH.
Qed.

(** ** Waiting for the goroutines *)

Lemma trace_waitAll_cons {A} (m : M A) (tasks : list (M A)) :
  trace (waitAll (m :: tasks)) = trace m ++ trace (waitAll tasks).
Proof.
  destruct m as [t r]. simpl. destruct (waitAll tasks). reflexivity.
Qed.

Lemma outcome_waitAll_cons {A} (m : M A) (tasks : list (M A)) :
  outcome (waitAll (m :: tasks))
  = match outcome m, outcome (waitAll tasks) with
    | Err e, _ => Err e
    | Ok _, Err e => Err e
    | Ok a, Ok l => Ok (a :: l)
    end.
Proof.
  destruct m as [t r]. simpl. destruct (waitAll tasks). reflexivity.
Qed.

(** ** Stripping the trailer *)

Lemma length_trailer : length trailer = 1024%nat.
Proof. reflexivity. Qed.

Lemma stripTrailer_app (ms : bytes) : stripTrailer (ms ++ trailer) = ms.
Proof.
  unfold stripTrailer.
  rewrite length_app, length_trailer.
  replace (length ms + 1024 - 1024)%nat with (length ms) by lia.
  rewrite firstn_app, firstn_all, Nat.sub_diag. simpl.
  apply app_nil_r.
Qed.

Section Parts.

Variable W : World.
Variable opts : S3TarS3Options.

Lemma singlePassTar_members (plan : list S3Obj) (data : bytes) :
  singlePassTar W opts plan = Some data <->
  exists ms, members W opts plan = Some ms /\ data = ms ++ trailer.
Proof.
  unfold singlePassTar. destruct (members W opts plan) as [ms |].
  - split.
    + intros E. inversion E. eauto.
    + intros [ms' [E ->]]. inversion E. reflexivity.
  - split; [discriminate | intros [ms' [E _]]; discriminate].
Qed.

Lemma tarGroup_err (objectList : list S3Obj) (e : Error) :
  outcome (tarGroup W objectList opts) = Err e ->
  singlePassTar W opts objectList = None.
Proof.
  intros He.
  destruct (singlePassTar W opts objectList) as [data |] eqn:Hs;
    [| reflexivity].
  apply tarGroup_ok in Hs. congruence.
Qed.

(** The slice expression of [processGroups] never panics on what
    [tarGroup] returns. *)
Lemma dropTrailer_tar (plan : list S3Obj) (data : bytes) :
  singlePassTar W opts plan = Some data ->
  dropTrailer data = ret (stripTrailer data).
Proof.
  intros Hs. apply singlePassTar_members in Hs.
  destruct Hs as [ms [_ ->]].
  unfold dropTrailer.
  assert (Hlen : blen (ms ++ trailer) - 1024 = blen ms)
    by (rewrite blen_app, blen_trailer; lia).
  rewrite Hlen.
  pose proof (blen_nonneg ms) as Hpos.
  destruct (blen ms <? 0) eqn:Hneg; [apply Z.ltb_lt in Hneg; lia |].
  rewrite stripTrailer_app. unfold ret. do 2 f_equal.
  unfold blen. rewrite Nat2Z.id.
  rewrite firstn_app, firstn_all, Nat.sub_diag. simpl.
  apply app_nil_r.
Qed.

(** What one goroutine writes: its part, when its group can be tarred. *)
Lemma groupTask_writes (uploadId : string) (n i : Z) (group : list S3Obj) :
  writes (trace (groupTask W opts uploadId n i group))
  = match groupBuffer W opts (i =? n - 1) group with
    | Some body =>
        [EvUploadPart uploadId (DstBucket opts) (DstKey opts)
                      (wrap32 (i + 1)) body]
    | None => []
    end.
Proof.
  unfold groupTask, groupBuffer.
  rewrite trace_bind, writes_app.
  rewrite (readsOnly_writes _ (tarGroup_trace W opts group)). simpl.
  destruct (outcome (tarGroup W group opts)) as [data | e] eqn:Hout.
  - apply tarGroup_ok in Hout. rewrite Hout.
    destruct (i =? n - 1); simpl.
    + unfold uploadPart, emit, bind, ret. simpl.
      destruct (of_store _ _) as [[etag sha] | e]; reflexivity.
    + rewrite (dropTrailer_tar _ _ Hout).
      unfold uploadPart, emit, bind, ret. simpl.
      destruct (of_store _ _) as [[etag sha] | e]; reflexivity.
  - rewrite (tarGroup_err _ _ Hout). reflexivity.
Qed.

Lemma groupTask_ok (uploadId : string) (n i : Z) (group : list S3Obj)
    (part : CompletedPart) (size : Z) :
  outcome (groupTask W opts uploadId n i group) = Ok (part, size) ->
  exists body,
    groupBuffer W opts (i =? n - 1) group = Some body /\
    size = blen body /\ PartNumber part = wrap32 (i + 1).
Proof.
  unfold groupTask, groupBuffer.
  rewrite outcome_bind.
  destruct (outcome (tarGroup W group opts)) as [data | e] eqn:Hout;
    [| discriminate].
  apply tarGroup_ok in Hout. rewrite Hout.
  destruct (i =? n - 1); simpl.
  - unfold uploadPart, emit, bind, ret. simpl.
    destruct (of_store _ _) as [[etag sha] | e]; simpl; [| discriminate].
    intros E. inversion E. eauto.
  - rewrite (dropTrailer_tar _ _ Hout).
    unfold uploadPart, emit, bind, ret. simpl.
    destruct (of_store _ _) as [[etag sha] | e]; simpl; [| discriminate].
    intros E. inversion E. eauto.
Qed.

End Parts.

(** ** One part per group *)

Section ExpectedParts.

Variable W : World.
Variable opts : S3TarS3Options.
Variable ngroups : Z.

Lemma members_app (g h : list S3Obj) :
  members W opts (g ++ h)
  = match members W opts g, members W opts h with
    | Some x, Some y => Some (x ++ y)
    | _, _ => None
    end.
Proof.
  induction g as [| o g IH]; simpl.
  - destruct (members W opts h); reflexivity.
  - rewrite IH.
    destruct (member W opts o) as [m |]; [| reflexivity].
    destruct (members W opts g) as [x |]; [| reflexivity].
    destruct (members W opts h) as [y |]; [| reflexivity].
    now rewrite app_assoc.
Qed.

Lemma groupBuffer_nonterminal (group : list S3Obj) (body : bytes) :
  groupBuffer W opts false group = Some body <->
  members W opts group = Some body.
Proof.
  unfold groupBuffer, singlePassTar.
  destruct (members W opts group) as [ms |].
  - rewrite stripTrailer_app. tauto.
  - tauto.
Qed.



(** The buffers of the groups, put end to end, are the single-pass tar of
    the groups put end to end. *)
Lemma expectedParts_concat (groups : list (list S3Obj)) :
  forall i parts,
    i + Z.of_nat (length groups) = ngroups ->
    groups <> [] ->
    expectedParts W opts ngroups i groups = Some parts ->
    singlePassTar W opts (concat groups) = Some (concat (map snd parts)).
Proof.
  induction groups as [| g rest IH]; intros i parts Hn Hne; [congruence |].
  simpl.
  destruct (groupBuffer _ _ _ g) as [body |] eqn:Hbody; [| discriminate].
  destruct (expectedParts _ _ _ _ rest) as [ps |] eqn:Hps; [| discriminate].
  intros E. inversion E; subst parts. clear E. simpl.
  destruct rest as [| g' rest'].
  - simpl in Hps. inversion Hps; subst ps. simpl.
    rewrite !app_nil_r.
    simpl in Hn.
    replace (i =? ngroups - 1) with true in Hbody
      by (symmetry; apply Z.eqb_eq; lia).
    unfold groupBuffer in Hbody.
    destruct (singlePassTar W opts g); [exact Hbody | discriminate].
  - replace (i =? ngroups - 1) with false in Hbody
      by (symmetry; apply Z.eqb_neq; simpl length in Hn; lia).
    apply groupBuffer_nonterminal in Hbody.
    assert (Hrest : singlePassTar W opts (concat (g' :: rest'))
                    = Some (concat (map snd ps))).
    { apply (IH (i + 1)); [simpl length in *; lia | discriminate | exact Hps]. }
    apply singlePassTar_members in Hrest.
    destruct Hrest as [ms' [Hms' Hcat]].
    apply singlePassTar_members.
    exists (body ++ ms'). split.
    + rewrite members_app, Hbody, Hms'. reflexivity.
    + rewrite Hcat. now rewrite app_assoc.
Qed.


Variable uploadId : string.

Lemma groupTasks_writes (groups : list (list S3Obj)) :
  forall i parts,
    0 <= i ->
    i + Z.of_nat (length groups) < 2 ^ 31 ->
    expectedParts W opts ngroups i groups = Some parts ->
    writes (trace (waitAll (groupTasks W opts uploadId ngroups i groups)))
    = map (uploadOf uploadId (DstBucket opts) (DstKey opts)) parts.
Proof.
  induction groups as [| g rest IH]; intros i parts Hi Hn;
    cbn [expectedParts groupTasks].
  - intros E. inversion E. reflexivity.
  - destruct (groupBuffer _ _ _ g) as [body |] eqn:Hbody; [| discriminate].
    destruct (expectedParts _ _ _ _ rest) as [ps |] eqn:Hps; [| discriminate].
    intros E. inversion E; subst parts. clear E.
    rewrite trace_waitAll_cons, writes_app, groupTask_writes, Hbody.
    rewrite (IH (i + 1) ps); [| lia | simpl length in Hn; lia | exact Hps].
    rewrite wrap32_small by (simpl length in Hn; lia).
    reflexivity.
Qed.

Lemma groupTasks_ok (groups : list (list S3Obj)) :
  forall i done,
    outcome (waitAll (groupTasks W opts uploadId ngroups i groups))
    = Ok done ->
    exists parts,
      expectedParts W opts ngroups i groups = Some parts /\
      map snd done = map (fun p => blen (snd p)) parts.
Proof.
  induction groups as [| g rest IH]; intros i done;
    cbn [expectedParts groupTasks].
  - intros E. inversion E. exists []. auto.
  - rewrite outcome_waitAll_cons.
    destruct (outcome (groupTask _ _ _ _ _ g)) as [[part size] | e] eqn:Hg;
      [| discriminate].
    destruct (outcome (waitAll _)) as [l | e] eqn:Hrest; [| discriminate].
    intros E. inversion E; subst done. clear E.
    apply groupTask_ok in Hg. destruct Hg as [body [Hbody [-> _]]].
    destruct (IH _ _ Hrest) as [ps [Hps Hsizes]].
    rewrite Hbody, Hps. eexists. split; [reflexivity |].
    simpl. now rewrite Hsizes.
Qed.

End ExpectedParts.

(** ** The multipart path *)

Section Multipart.

Variable W : World.
Variable objectList : list S3Obj.
Variable estimatedSize : Z.
Variable opts : S3TarS3Options.

Let run := buildInMemoryConcat W objectList estimatedSize opts.
Let groups :=
  splitSliceBySizeLimit
    (findMinimumPartSize W estimatedSize (UserMaxPartSize opts)) objectList.
Let ngroups := Z.of_nat (length groups).

Hypothesis Hlargest : findLargestObject objectList <= partSizeMax.
Hypothesis Hbig : fileSizeMin <= estimatedSize.
Hypothesis Hbudget : ngroups <= maxPartNumLimit.


(** The writes of the run once the upload is created and every group can
    be tarred: the parts in group order, then at most the completion. *)
Lemma multipart_writes (uploadId : string) (parts : list (Z * bytes)) :
  CreateMultipartUpload W (DstBucket opts) (DstKey opts) = Done uploadId ->
  expectedParts W opts ngroups 0 groups = Some parts ->
  exists tail,
    writes (trace run)
    = EvCreateMultipartUpload (DstBucket opts) (DstKey opts)
      :: map (uploadOf uploadId (DstBucket opts) (DstKey opts)) parts
      ++ tail
    /\ uploadedParts tail = [] /\ archiveOf tail = [].
Proof.
  intros Hcreate Hparts.
  unfold run. rewrite run_multipart by assumption.
  rewrite trace_bind. unfold emit at 1 2. simpl trace. simpl outcome.
  rewrite Hcreate. simpl of_store. cbv iota.
  rewrite trace_bind.
  change ([EvCreateMultipartUpload (DstBucket opts) (DstKey opts)] ++ ?x)
    with (EvCreateMultipartUpload (DstBucket opts) (DstKey opts) :: x).
  cbn [writes filter is_write]. fold (writes).
  unfold processGroups. fold groups. fold ngroups.
  match goal with
  | |- context [filter is_write ?t] =>
      change (filter is_write t) with (writes t)
  end.
  rewrite writes_app.
  rewrite (groupTasks_writes W opts ngroups uploadId groups 0 parts);
    [| lia | fold ngroups; unfold maxPartNumLimit in Hbudget; lia
     | exact Hparts].
  eexists. split; [reflexivity |].
  destruct (outcome (waitAll _)) as [done | e]; [| auto].
  destruct (of_store _ _) as [[[bucket key] etag] | e]; simpl; auto.
Qed.

Lemma multipart_ok (obj : S3Obj) :
  outcome run = Ok obj ->
  exists uploadId parts,
    CreateMultipartUpload W (DstBucket opts) (DstKey opts) = Done uploadId /\
    expectedParts W opts ngroups 0 groups = Some parts /\
    Size obj = sumSlice (map (fun p => blen (snd p)) parts).
Proof.
  unfold run. rewrite run_multipart by assumption.
  rewrite outcome_bind. unfold emit at 1. simpl outcome.
  destruct (CreateMultipartUpload W _ _) as [uploadId | msg];
    [| discriminate].
  simpl of_store. cbv iota.
  rewrite outcome_bind.
  destruct (outcome (processGroups W opts uploadId _)) as [done | e] eqn:Hpg;
    [| discriminate].
  destruct (of_store _ _) as [[[bucket key] etag] | e]; simpl;
    [| discriminate].
  intros E. inversion E. simpl.
  apply groupTasks_ok in Hpg. destruct Hpg as [parts [Hparts Hsizes]].
  exists uploadId, parts. rewrite Hsizes. auto.
Qed.

Lemma multipart_parts (obj : S3Obj) :
  outcome run = Ok obj ->
  exists parts,
    expectedParts W opts ngroups 0 groups = Some parts /\
    uploadedParts (trace run) = parts /\
    archiveOf (trace run) = concat (map snd parts).
Proof.
  intros Hok.
  destruct (multipart_ok obj Hok) as [uploadId [parts [Hc [Hparts _]]]].
  destruct (multipart_writes uploadId parts Hc Hparts)
    as [tail [Hw [Htail1 Htail2]]].
  exists parts. split; [assumption |]. split.
  - rewrite <- uploadedParts_writes, Hw. simpl.
    rewrite uploadedParts_app, uploadedParts_uploads, Htail1.
    apply app_nil_r.
  - rewrite <- archiveOf_writes, Hw.
    change (EvCreateMultipartUpload (DstBucket opts) (DstKey opts) :: ?x)
      with ([EvCreateMultipartUpload (DstBucket opts) (DstKey opts)] ++ x).
    rewrite !archiveOf_app, archiveOf_uploads, Htail2.
    simpl. apply app_nil_r.
Qed.

End Multipart.

(** ** The single-object path *)

Section Small.

Variable W : World.
Variable objectList : list S3Obj.
Variable estimatedSize : Z.
Variable opts : S3TarS3Options.

Let run := buildInMemoryConcat W objectList estimatedSize opts.

Hypothesis Hlargest : findLargestObject objectList <= partSizeMax.
Hypothesis Hsmall : estimatedSize < fileSizeMin.

Lemma small_writes :
  writes (trace run)
  = match singlePassTar W opts objectList with
    | Some data => [EvPutObject (DstBucket opts) (DstKey opts) data]
    | None => []
    end.
Proof.
  unfold run. rewrite run_small by assumption.
  rewrite trace_bind, writes_app.
  rewrite (readsOnly_writes _ (tarGroup_trace W opts objectList)). simpl.
  destruct (outcome (tarGroup W objectList opts)) as [data | e] eqn:Hout.
  - apply tarGroup_ok in Hout. rewrite Hout.
    unfold uploadObject, emit, bind, ret. simpl.
    destruct (of_store _ _); reflexivity.
  - now rewrite (tarGroup_err _ _ _ _ Hout).
Qed.

Lemma small_ok (obj : S3Obj) :
  outcome run = Ok obj ->
  exists data,
    singlePassTar W opts objectList = Some data /\ Size obj = blen data.
Proof.
  unfold run. rewrite run_small by assumption.
  rewrite outcome_bind.
  destruct (outcome (tarGroup W objectList opts)) as [data | e] eqn:Hout;
    [| discriminate].
  apply tarGroup_ok in Hout.
  unfold uploadObject, emit, bind, ret. simpl.
  destruct (of_store _ _); simpl; [| discriminate].
  intros E. inversion E. simpl. eauto.
Qed.

End Small.



(** A run that ends well went through the checks. *)
Lemma run_ok_checks (W : World) (objectList : list S3Obj)
    (estimatedSize : Z) (opts : S3TarS3Options) (obj : S3Obj) :
  outcome (buildInMemoryConcat W objectList estimatedSize opts) = Ok obj ->
  findLargestObject objectList <= partSizeMax /\
  (fileSizeMin <= estimatedSize ->
   Z.of_nat (length (groupsOf W estimatedSize opts objectList))
   <= maxPartNumLimit).
Proof.
  intros Hok.
  destruct (Z.lt_ge_cases partSizeMax (findLargestObject objectList))
    as [H | H].
  - rewrite run_too_large in Hok by assumption. discriminate.
  - split; [assumption |]. intros Hbig.
    destruct (Z.lt_ge_cases maxPartNumLimit
                (Z.of_nat (length (groupsOf W estimatedSize opts objectList))))
      as [Hover | Hfit]; [| assumption].
    unfold groupsOf in Hover.
    rewrite run_over_budget in Hok by assumption. discriminate.
Qed.

(** ** Lengths *)

Section Lengths.

Variable W : World.
Variable opts : S3TarS3Options.

Lemma member_length (o : S3Obj) (m : bytes) :
  member W opts o = Some m ->
  exists payload md blk,
    payloadOf W o = Some (payload, md) /\
    headerBlocks W opts o md = Some blk /\
    m = blk ++ payload ++ zeros (blockPadding (Size o)) /\
    blen m = blen blk + blen payload + blockPadding (Size o) /\
    Size o <= blen payload /\
    (0 <= Size o -> blen payload = Size o).
Proof.
  intros Hm. apply member_some in Hm.
  destruct Hm as [payload [md [blk [Hp [Hb [Hw ->]]]]]].
  exists payload, md, blk.
  pose proof (blockPadding_range (Size o)) as Hpad.
  rewrite !blen_app, blen_zeros by lia.
  split; [assumption |]. split; [assumption |].
  split; [reflexivity |]. split; [lia |]. split.
  - unfold wellSized in Hw. destruct payload as [| b payload].
    + apply Z.leb_le in Hw. unfold blen; simpl; lia.
    + apply Z.eqb_eq in Hw. lia.
  - intros Hpos. unfold wellSized in Hw. destruct payload as [| b payload].
    + apply Z.leb_le in Hw. unfold blen; simpl; lia.
    + apply Z.eqb_eq in Hw. lia.
Qed.



End Lengths.

Lemma totalSize_nonneg (group : list S3Obj) :
  Forall (fun o => 0 <= Size o) group -> 0 <= totalSize group.
Proof.
  induction 1 as [| o group Ho _ IH]; simpl; lia.
Qed.



Lemma Forall_concat_group {A} (P : A -> Prop) (groups : list (list A))
    (group : list A) :
  Forall P (concat groups) -> In group groups -> Forall P group.
Proof.
  intros Hall Hin. apply Forall_forall. intros x Hx.
  rewrite Forall_forall in Hall. apply Hall.
  apply in_concat. eauto.
Qed.

(** ** The archive of a run that ends well *)

Lemma groupsOf_nonempty (W : World) (estimatedSize : Z)
    (opts : S3TarS3Options) (objectList : list S3Obj) :
  objectList <> [] -> groupsOf W estimatedSize opts objectList <> [].
Proof.
  intros Hne Hg.
  pose proof (splitSlice_concat
                (findMinimumPartSize W estimatedSize (UserMaxPartSize opts))
                objectList) as Hcat.
  unfold groupsOf in Hg. rewrite Hg in Hcat. simpl in Hcat. congruence.
Qed.

Lemma multipart_archive (W : World) (objectList : list S3Obj)
    (estimatedSize : Z) (opts : S3TarS3Options) (obj : S3Obj) :
  fileSizeMin <= estimatedSize ->
  objectList <> [] ->
  outcome (buildInMemoryConcat W objectList estimatedSize opts) = Ok obj ->
  exists parts,
    expectedParts W opts
      (Z.of_nat (length (groupsOf W estimatedSize opts objectList))) 0
      (groupsOf W estimatedSize opts objectList) = Some parts /\
    uploadedParts (trace (buildInMemoryConcat W objectList estimatedSize
                                              opts)) = parts /\
    archiveOf (trace (buildInMemoryConcat W objectList estimatedSize opts))
    = concat (map snd parts) /\
    singlePassTar W opts objectList = Some (concat (map snd parts)).
Proof.
  intros Hbig Hne Hok.
  destruct (run_ok_checks _ _ _ _ _ Hok) as [Hlargest Hbudget].
  specialize (Hbudget Hbig).
  destruct (multipart_parts W objectList estimatedSize opts
              Hlargest Hbig Hbudget obj Hok)
    as [parts [Hparts [Hup Har]]].
  exists parts. repeat split; try assumption.
  pose proof (expectedParts_concat W opts _ _ 0 parts eq_refl
                (groupsOf_nonempty W estimatedSize opts _ Hne) Hparts)
    as Hcat.
  unfold groupsOf in Hcat at 1.
  now rewrite splitSlice_concat in Hcat.
Qed.

Lemma small_archive (W : World) (objectList : list S3Obj)
    (estimatedSize : Z) (opts : S3TarS3Options) (obj : S3Obj) :
  estimatedSize < fileSizeMin ->
  outcome (buildInMemoryConcat W objectList estimatedSize opts) = Ok obj ->
  singlePassTar W opts objectList
  = Some (archiveOf (trace (buildInMemoryConcat W objectList estimatedSize
                                                opts)))
  /\ uploadedParts (trace (buildInMemoryConcat W objectList estimatedSize
                                               opts)) = [].
Proof.
  intros Hsmall Hok.
  destruct (run_ok_checks _ _ _ _ _ Hok) as [Hlargest _].
  destruct (small_ok W objectList estimatedSize opts Hlargest Hsmall obj Hok)
    as [data [Hdata _]].
  pose proof (small_writes W objectList estimatedSize opts Hlargest Hsmall)
    as Hw.
  rewrite Hdata in Hw.
  rewrite <- archiveOf_writes, <- uploadedParts_writes, Hw.
  unfold archiveOf. simpl. now rewrite app_nil_r.
Qed.





(** An empty plan sent to the multipart path gives no part at all, not
    even the trailer. *)
Example empty_plan_multipart :
  partBodies (trace (buildInMemoryConcat demoWorld [] fileSizeMin demoOpts))
  = []
  /\ singlePassTar demoWorld demoOpts [] = Some trailer.
Proof. split; reflexivity. Qed.






(** ** The part budget *)




(** ** No table of contents in the in-memory archive *)

(** C9.  When [buildInMemoryConcat] ends well on a list that starts with
    the object [o], the archive it stored, the body of the [PutObject] or
    the parts put end to end, is the single-pass tar of the list as given,
    one member per object: it starts with the header blocks of [o] followed
    by the payload of [o], and no member is put before it. *)
Theorem no_toc_member
    (W : World) (o : S3Obj) (rest : list S3Obj) (estimatedSize : Z)
    (opts : S3TarS3Options) (obj : S3Obj) :
  outcome (buildInMemoryConcat W (o :: rest) estimatedSize opts) = Ok obj ->
  singlePassTar W opts (o :: rest)
  = Some (archiveOf (trace (buildInMemoryConcat W (o :: rest) estimatedSize
                                                opts)))
  /\ exists payload md blk tail,
       payloadOf W o = Some (payload, md) /\
       headerBlocks W opts o md = Some blk /\
       archiveOf (trace (buildInMemoryConcat W (o :: rest) estimatedSize
                                             opts))
       = blk ++ payload ++ tail.
Proof.
  intros Hok.
  assert (Htar : singlePassTar W opts (o :: rest)
                 = Some (archiveOf (trace (buildInMemoryConcat W (o :: rest)
                                             estimatedSize opts)))).
  { destruct (Z.lt_ge_cases estimatedSize fileSizeMin) as [Hsmall | Hbig].
    - exact (proj1 (small_archive _ _ _ _ _ Hsmall Hok)).
    - destruct (multipart_archive W (o :: rest) estimatedSize opts obj Hbig)
        as [parts [_ [_ [Har Hs]]]]; [discriminate | assumption |].
      now rewrite Har. }
  split; [exact Htar |].
  apply singlePassTar_members in Htar. destruct Htar as [ms [Hms Har]].
  simpl in Hms.
  destruct (member W opts o) as [m |] eqn:Hm; [| discriminate].
  destruct (members W opts rest) as [ms' |]; [| discriminate].
  inversion Hms; subst ms. clear Hms.
  destruct (member_length _ _ _ _ Hm)
    as [payload [md [blk [Hp [Hb [-> _]]]]]].
  exists payload, md, blk,
    (zeros (blockPadding (Size o)) ++ ms' ++ trailer).
  split; [assumption |]. split; [assumption |].
  rewrite Har. now rewrite <- !app_assoc.
Qed.

(** C9 at a concrete list: the archive starts with the header block of the
    first object, whose first byte is the first letter of its key. *)
Lemma no_toc_member_witness :
  singlePassTar demoWorld demoOpts [sized "bc" 2; inline "a" [x01]]
  = Some (archiveOf (trace (buildInMemoryConcat demoWorld
                              [sized "bc" 2; inline "a" [x01]] 10
                              demoOpts)))
  /\ firstn 3 (archiveOf (trace (buildInMemoryConcat demoWorld
                                   [sized "bc" 2; inline "a" [x01]] 10
                                   demoOpts)))
     = list_byte_of_string "bc" ++ [x00].
Proof.
  split; [| reflexivity].
  apply (no_toc_member demoWorld (sized "bc" 2) [inline "a" [x01]] 10
           demoOpts (mkS3Obj "dst" "archive.tar" "etag-put" 3072 0 [])).
  vm_compute. reflexivity.
Defined.

(** ** The boundary scenario of one member of 4 MiB *)

Lemma blen_demoHeaderBlock (name : string) :
  blen (demoHeaderBlock name) = blockSize.
Proof.
  unfold demoHeaderBlock, blen.
  rewrite length_firstn, length_app.
  assert (H : length (zeros blockSize) = Z.to_nat blockSize)
    by apply repeat_length.
  rewrite H. unfold blockSize. lia.
Qed.

Lemma demo_header_one_block (h : Header) (blk : bytes) :
  encodeHeader demoWorld h = Done blk -> blen blk = blockSize.
Proof.
  unfold demoWorld, encodeHeader.
  destruct (HSize h <? 0); [discriminate |].
  intros E. injection E as <-. apply blen_demoHeaderBlock.
Qed.

Example four_MiB_member :
  exists data,
    singlePassTar fourMiBWorld demoOpts [sized "x" (4 * MiB)] = Some data
    /\ writes (trace (buildInMemoryConcat fourMiBWorld
                        [sized "x" (4 * MiB)] (4 * MiB) demoOpts))
       = [EvPutObject "dst" "archive.tar" data]
    /\ blen data = 4 * MiB + 512 + 1024.
Proof.
  pose (blk := demoHeaderBlock "x").
  assert (Hm : member fourMiBWorld demoOpts (sized "x" (4 * MiB))
               = Some (blk ++ zeros (4 * MiB)
                           ++ zeros (blockPadding (4 * MiB)))).
  { apply member_some. exists (zeros (4 * MiB)), [], blk.
    split; [reflexivity |]. split; [reflexivity |]. split; [| reflexivity].
    apply wellSized_fits.
    rewrite blen_zeros by (unfold MiB; lia).
    change (Size (sized "x" (4 * MiB))) with (4 * MiB). lia. }
  assert (Htar : singlePassTar fourMiBWorld demoOpts [sized "x" (4 * MiB)]
                 = Some ((blk ++ zeros (4 * MiB)
                              ++ zeros (blockPadding (4 * MiB))) ++ trailer)).
  { apply singlePassTar_members. eexists. split; [| reflexivity].
    cbn [members]. rewrite Hm. rewrite app_nil_r. reflexivity. }
  assert (Hsmall : 4 * MiB < fileSizeMin) by (unfold fileSizeMin, MiB; lia).
  assert (Hlargest : findLargestObject [sized "x" (4 * MiB)] <= partSizeMax)
    by (vm_compute; discriminate).
  eexists. split; [exact Htar |]. split.
  - rewrite (small_writes fourMiBWorld _ _ demoOpts Hlargest Hsmall), Htar.
    reflexivity.
  - rewrite !blen_app, blen_trailer, !blen_zeros.
    + rewrite blockPadding_multiple by reflexivity.
      unfold blk. rewrite blen_demoHeaderBlock. unfold blockSize. lia.
    + apply blockPadding_range.
    + unfold MiB. lia.
Qed.

(** * utils.go *)

Local Open Scope string_scope.

(** ** [ExtractBucketAndPath] *)

Lemma stripPrefix_prefix (p s : string) :
  stripPrefix p s = None <-> String.prefix p s = false.
Proof.
  revert s. induction p as [| a p IH]; intros s; destruct s as [| b s]; simpl.
  - split; intros H; discriminate H.
  - split; intros H; discriminate H.
  - tauto.
  -
    destruct (Ascii.eqb a b) eqn:E.
    + apply Ascii.eqb_eq in E. subst b.
      destruct (ascii_dec a a) as [_ | N]; [apply IH | congruence].
    + apply Ascii.eqb_neq in E.
      destruct (ascii_dec a b) as [Eq | _]; [congruence | tauto].
Qed.

Lemma stripPrefix_app (p s : string) : stripPrefix p (p ++ s) = Some s.
Proof.
  induction p as [| a p IH]; simpl; [reflexivity |].
  now rewrite Ascii.eqb_refl.
Qed.

Lemma cutAtSlash_bucket (bucket : string) :
  hasSlash bucket = false -> cutAtSlash bucket = (bucket, EmptyString).
Proof.
  induction bucket as [| c bucket IH]; simpl; [reflexivity |].
  intros H. apply orb_false_iff in H. destruct H as [Hc Hrest].
  now rewrite Hc, (IH Hrest).
Qed.

Lemma cutAtSlash_key (bucket key : string) :
  hasSlash bucket = false ->
  cutAtSlash (bucket ++ String "/" key) = (bucket, key).
Proof.
  induction bucket as [| c bucket IH]; simpl; [reflexivity |].
  intros H. apply orb_false_iff in H. destruct H as [Hc Hrest].
  now rewrite Hc, (IH Hrest).
Qed.

(** C7.  On [s3://bucket/key], with no slash in the bucket,
    [ExtractBucketAndPath] returns the bucket and the key, the slash
    between them in neither; on [s3://bucket] it returns the bucket and an
    empty path; on every input that does not begin with [s3://], the empty
    string and a local path among them, it returns an empty bucket and an
    empty path. *)
Theorem ExtractBucketAndPath_parses :
  (forall bucket key,
     hasSlash bucket = false ->
     ExtractBucketAndPath ("s3://" ++ bucket ++ "/" ++ key) = (bucket, key))
  /\ (forall bucket,
        hasSlash bucket = false ->
        ExtractBucketAndPath ("s3://" ++ bucket) = (bucket, ""))
  /\ (forall s3url,
        String.prefix "s3://" s3url = false ->
        ExtractBucketAndPath s3url = ("", ""))
  /\ ExtractBucketAndPath "" = ("", "")
  /\ ExtractBucketAndPath "/home/yanko" = ("", "").
Proof.
  split; [| split; [| split; [| split; reflexivity]]].
  - intros bucket key H. unfold ExtractBucketAndPath.
    rewrite stripPrefix_app. now apply cutAtSlash_key.
  - intros bucket H. unfold ExtractBucketAndPath.
    rewrite stripPrefix_app. now apply cutAtSlash_bucket.
  - intros s3url H. unfold ExtractBucketAndPath.
    apply stripPrefix_prefix in H. now rewrite H.
Qed.

(** The table of [TestExtractBucketAndPath]. *)
Example TestExtractBucketAndPath_table :
  map ExtractBucketAndPath
      ["s3://bucket/prefix"; "s3://bucket/prefix/"; "s3://bucket";
       "/home/yanko"; ""]
  = [("bucket", "prefix"); ("bucket", "prefix/"); ("bucket", "");
     ("", ""); ("", "")].
Proof. reflexivity. Qed.

(** ** [matchesRegexp] *)

(** The table of [TestMatchesRegexp]; its last line is the one named
    "invalid regex pattern", for which the test wants an error. *)
Example TestMatchesRegexp_table :
  map (matchesRegexp "file.txt")
      ["*.txt"; "*.jpg"; "file.?xt"; "file.?jpg"; "*.jpg|*.txt"; "[*.txt"]
  = [Matched true; Matched false; Matched true; Matched false;
     Matched true; CompileError MissingClosingBracket].
Proof. reflexivity. Qed.












Local Close Scope string_scope.

(* ================================================================== *)
(** * Further properties of mem_concat.go *)

(** ** [findLargestObject] *)

Lemma findLargestLoop_max (objectList : list S3Obj) :
  forall largest key,
    largest <= fst (findLargestLoop objectList largest key)
    /\ Forall (fun o => Size o <= fst (findLargestLoop objectList largest key))
              objectList
    /\ (fst (findLargestLoop objectList largest key) = largest
        \/ exists o, In o objectList /\
             Size o = fst (findLargestLoop objectList largest key)).
Proof.
  induction objectList as [| o rest IH]; intros largest key; simpl.
  - split; [lia |]. split; [constructor | left; reflexivity].
  - destruct (largest <? Size o) eqn:Hlt.
    + apply Z.ltb_lt in Hlt.
      destruct (IH (Size o) (Key o)) as [Hle [Hall Hor]].
      split; [lia |]. split; [constructor; assumption |].
      right. destruct Hor as [Heq | [x [Hin Hx]]].
      * exists o. split; [left; reflexivity | symmetry; exact Heq].
      * exists x. split; [right; assumption | assumption].
    + apply Z.ltb_ge in Hlt.
      destruct (IH largest key) as [Hle [Hall Hor]].
      split; [assumption |]. split; [constructor; [lia | assumption] |].
      destruct Hor as [Heq | [x [Hin Hx]]]; [left; assumption |].
      right. exists x. split; [right; assumption | assumption].
Qed.

(** X1.  [findLargestObject] returns the largest size of the list, counted
    from zero: the result is not negative, no object of the list is larger,
    and the result is zero (as for the empty list and for a list without a
    positive size) or the size of an object of the list. *)
Theorem findLargestObject_is_maximum (objectList : list S3Obj) :
  0 <= findLargestObject objectList
  /\ Forall (fun o => Size o <= findLargestObject objectList) objectList
  /\ (findLargestObject objectList = 0
      \/ exists o, In o objectList /\ Size o = findLargestObject objectList).
Proof.
  unfold findLargestObject.
  exact (findLargestLoop_max objectList 0 EmptyString).
Qed.

(** The key that the loop keeps is that of the first object that reaches
    the final size, when the size it started from was passed at all. *)
Lemma findLargestLoop_key (objectList : list S3Obj) :
  forall largest key,
    (fst (findLargestLoop objectList largest key) = largest
     /\ snd (findLargestLoop objectList largest key) = key)
    \/ (exists before o after,
          objectList = before ++ o :: after
          /\ Size o = fst (findLargestLoop objectList largest key)
          /\ Key o = snd (findLargestLoop objectList largest key)
          /\ largest < Size o
          /\ Forall (fun x => Size x < Size o) before).
Proof.
  induction objectList as [| o rest IH]; intros largest key; simpl.
  - left. split; reflexivity.
  - destruct (largest <? Size o) eqn:Hlt.
    + apply Z.ltb_lt in Hlt. right.
      destruct (IH (Size o) (Key o))
        as [[Hm Hk] | [before [x [after [Hl [Hs [Hkx [Hgt Hb]]]]]]]].
      * exists [], o, rest. rewrite Hm, Hk.
        repeat split; try reflexivity; try assumption. constructor.
      * exists (o :: before), x, after. subst rest.
        split; [reflexivity |]. split; [assumption |].
        split; [assumption |]. split; [lia |].
        constructor; assumption.
    + apply Z.ltb_ge in Hlt.
      destruct (IH largest key)
        as [[Hm Hk] | [before [x [after [Hl [Hs [Hkx [Hgt Hb]]]]]]]].
      * left. split; assumption.
      * right. exists (o :: before), x, after. subst rest.
        split; [reflexivity |]. split; [assumption |].
        split; [assumption |]. split; [assumption |].
        constructor; [lia | assumption].
Qed.

(** X2.  The key that [findLargestObject] prints is empty when no object
    has a positive size; otherwise it is the key of the first object of the
    list whose size is the largest one: every object before it is strictly
    smaller. *)
Theorem findLargestObject_prints_first_largest (objectList : list S3Obj) :
  (findLargestObject objectList = 0
   /\ snd (findLargestLoop objectList 0 EmptyString) = EmptyString)
  \/ (exists before o after,
        objectList = before ++ o :: after
        /\ Size o = findLargestObject objectList
        /\ Key o = snd (findLargestLoop objectList 0 EmptyString)
        /\ 0 < Size o
        /\ Forall (fun x => Size x < Size o) before).
Proof.
  unfold findLargestObject.
  exact (findLargestLoop_key objectList 0 EmptyString).
Qed.

(** ** [sumSlice] *)

Lemma sumSlice_from (values : list Z) (acc : Z) :
  fold_left add64 values (wrap64 acc)
  = wrap64 (acc + fold_right Z.add 0 values).
Proof.
  revert acc. induction values as [| v values IH]; intros acc; simpl.
  - f_equal. lia.
  - unfold add64 at 2. rewrite wrap64_add_l, IH. f_equal. lia.
Qed.

Lemma sum_nonneg (values : list Z) :
  Forall (fun v => 0 <= v) values -> 0 <= fold_right Z.add 0 values.
Proof.
  induction 1 as [| v values Hv _ IH]; simpl; lia.
Qed.

(** X3.  [sumSlice] over [int64] adds with wrap-around: its result is the
    sum of the values brought back into the range of [int64], and it is the
    sum itself when the values are not negative and their sum is below
    2^63. *)
Theorem sumSlice_wraps (values : list Z) :
  sumSlice values = wrap64 (fold_right Z.add 0 values)
  /\ (Forall (fun v => 0 <= v) values ->
      fold_right Z.add 0 values < 2 ^ 63 ->
      sumSlice values = fold_right Z.add 0 values).
Proof.
  assert (H : sumSlice values = wrap64 (fold_right Z.add 0 values)).
  { unfold sumSlice. change 0 with (wrap64 0) at 1.
    rewrite sumSlice_from. reflexivity. }
  split; [exact H |].
  intros Hpos Hlt. rewrite H. apply wrap64_small.
  pose proof (sum_nonneg values Hpos). unfold in_int64. lia.
Qed.

(** An overflow: two values of 2^62 add to 2^63, which [int64] shows as
    -2^63. *)
Example sumSlice_overflow : sumSlice [2 ^ 62; 2 ^ 62] = - 2 ^ 63.
Proof. reflexivity. Qed.

(** ** [splitSliceBySizeLimit] *)

Lemma length_concat_nonempty {A} (groups : list (list A)) :
  Forall (fun g => g <> []) groups ->
  (length groups <= length (concat groups))%nat.
Proof.
  induction 1 as [| g groups Hg _ IH]; simpl; [lia |].
  rewrite length_app. destruct g; [congruence | simpl; lia].
Qed.

(** X4.  [splitSliceBySizeLimit] makes no group of an empty list, and never
    more groups than there are objects. *)
Theorem splitSliceBySizeLimit_count
    (groupSizeLimit : Z) (objectList : list S3Obj) :
  splitSliceBySizeLimit groupSizeLimit [] = []
  /\ (length (splitSliceBySizeLimit groupSizeLimit objectList)
      <= length objectList)%nat.
Proof.
  split; [reflexivity |].
  rewrite <- (splitSlice_concat groupSizeLimit objectList) at 2.
  apply length_concat_nonempty.
  unfold splitSliceBySizeLimit. apply splitLoop_nonempty. constructor.
Qed.

(** While the running size stays at or below the larger of the ceiling and
    the minimum, the loop closes nothing. *)
Lemma splitLoop_no_close (groupSizeLimit : Z) (objectList : list S3Obj) :
  forall groups currentGroup currentSize,
    Z.max groupSizeLimit fileSizeMin < 2 ^ 63 ->
    currentSize = totalSize currentGroup ->
    0 <= currentSize ->
    Forall (fun o => 0 <= Size o) objectList ->
    currentSize + totalSize objectList <= Z.max groupSizeLimit fileSizeMin ->
    splitLoop groupSizeLimit objectList groups currentGroup currentSize
    = match currentGroup ++ objectList with
      | [] => groups
      | _ :: _ => groups ++ [currentGroup ++ objectList]
      end.
Proof.
  induction objectList as [| o rest IH];
    intros groups cur sz Hmax Hsz Hpos Hall Hbound; simpl.
  - rewrite app_nil_r. destruct cur; reflexivity.
  - inversion Hall as [| ? ? Ho Hrest]; subst.
    simpl in Hbound.
    pose proof (totalSize_nonneg rest Hrest) as Hr.
    assert (Hadd : add64 (totalSize cur) (Size o) = totalSize cur + Size o).
    { unfold add64. apply wrap64_small. unfold in_int64. lia. }
    rewrite Hadd.
    assert (Htest : (groupSizeLimit <? totalSize cur + Size o)
                    && (fileSizeMin <? totalSize cur + Size o) = false).
    { apply andb_false_iff.
      destruct (Z.max_spec groupSizeLimit fileSizeMin) as [[_ Hm] | [_ Hm]];
        [right | left]; apply Z.ltb_ge; lia. }
    rewrite Htest.
    rewrite IH; try assumption.
    + rewrite <- app_assoc. reflexivity.
    + rewrite totalSize_app. simpl. lia.
    + lia.
    + lia.
Qed.

(** X5.  A list of objects of non-negative sizes whose total is at most the
    group ceiling, or at most [fileSizeMin], stays in one group. *)
Theorem splitSliceBySizeLimit_single_group
    (groupSizeLimit : Z) (objectList : list S3Obj) :
  in_int64 groupSizeLimit ->
  Forall (fun o => 0 <= Size o) objectList ->
  objectList <> [] ->
  totalSize objectList <= Z.max groupSizeLimit fileSizeMin ->
  splitSliceBySizeLimit groupSizeLimit objectList = [objectList].
Proof.
  intros Hlim Hall Hne Hbound.
  unfold splitSliceBySizeLimit.
  rewrite (splitLoop_no_close groupSizeLimit objectList [] [] 0).
  - destruct objectList; [congruence | reflexivity].
  - unfold in_int64 in Hlim. unfold fileSizeMin, MiB. lia.
  - reflexivity.
  - lia.
  - assumption.
  - simpl. lia.
Qed.

(** X5 on three objects of 1 MiB with a ceiling of 8 MiB. *)
Lemma splitSliceBySizeLimit_single_group_witness :
  splitSliceBySizeLimit (8 * MiB)
    [sized "a" MiB; sized "b" MiB; sized "c" MiB]
  = [[sized "a" MiB; sized "b" MiB; sized "c" MiB]].
Proof.
  apply splitSliceBySizeLimit_single_group.
  - unfold in_int64, MiB. lia.
  - repeat constructor; vm_compute; discriminate.
  - discriminate.
  - vm_compute. discriminate.
Defined.

Lemma prefix_of_snoc {A} (a b l : list A) (x : A) :
  a ++ b = l ++ [x] -> b <> [] -> exists b', l = a ++ b'.
Proof.
  intros Heq Hb.
  destruct (exists_last Hb) as [b' [y Hy]]. subst b.
  rewrite app_assoc in Heq. apply app_inj_tail in Heq.
  destruct Heq as [Heq _]. eauto.
Qed.

Lemma not_closed_nil (groupSizeLimit : Z) : ~ closed groupSizeLimit [].
Proof.
  intros [_ H]. unfold cumSize in H. simpl in H.
  unfold fileSizeMin, MiB in H. lia.
Qed.

Lemma splitLoop_greedy (groupSizeLimit : Z) (objectList : list S3Obj) :
  forall groups currentGroup currentSize,
    Forall (unclosedStarts groupSizeLimit) groups ->
    currentSize = cumSize currentGroup ->
    (forall a b, currentGroup = a ++ b -> ~ closed groupSizeLimit a) ->
    Forall (unclosedStarts groupSizeLimit)
      (splitLoop groupSizeLimit objectList groups currentGroup currentSize).
Proof.
  induction objectList as [| o rest IH];
    intros groups cur sz Hgs Hsz Hcur; simpl.
  - destruct cur as [| c cur]; simpl; [assumption |].
    apply Forall_app. split; [assumption |].
    constructor; [| constructor].
    intros a b Hab _. exact (Hcur a b Hab).
  - destruct (_ && _) eqn:Htest.
    + apply IH; [| reflexivity |].
      * apply Forall_app. split; [assumption |].
        constructor; [| constructor].
        intros a b Hab Hb.
        destruct (prefix_of_snoc a b cur o (eq_sym Hab) Hb) as [b' Hb'].
        exact (Hcur a b' Hb').
      * intros a b Hab.
        destruct a; [apply not_closed_nil | discriminate].
    + apply IH; [assumption | |].
      * rewrite cumSize_snoc, Hsz. reflexivity.
      * intros a b Hab.
        destruct b as [| y b] using rev_ind.
        -- rewrite app_nil_r in Hab. subst a.
           intros [H1 H2]. rewrite cumSize_snoc, <- Hsz in H1, H2.
           apply andb_false_iff in Htest.
           destruct Htest as [Hf | Hf]; apply Z.ltb_ge in Hf; lia.
        -- assert (Hne : b ++ [y] <> []) by (destruct b; discriminate).
           destruct (prefix_of_snoc a (b ++ [y]) cur o (eq_sym Hab) Hne)
             as [b' Hb'].
           exact (Hcur a b' Hb').
Qed.

(** X6.  The grouping is greedy: a group is closed at the first object that
    brings its cumulative size above both the ceiling and [fileSizeMin], so
    within every returned group no shorter start of the group is above
    both. *)
Theorem splitSliceBySizeLimit_greedy
    (groupSizeLimit : Z) (objectList : list S3Obj) :
  Forall (fun group =>
            forall a b, group = a ++ b -> b <> [] ->
                        ~ closed groupSizeLimit a)
         (splitSliceBySizeLimit groupSizeLimit objectList).
Proof.
  unfold splitSliceBySizeLimit.
  apply (splitLoop_greedy groupSizeLimit objectList [] [] 0).
  - constructor.
  - reflexivity.
  - intros a b Hab. destruct a; [apply not_closed_nil | discriminate].
Qed.

(** ** What [tarGroup] reads *)

Lemma bind_assoc {A B C} (m : M A) (f : A -> M B) (g : B -> M C) :
  bind (bind m f) g = bind m (fun a => bind (f a) g).
Proof.
  destruct m as [t [a | e]]; simpl; [| reflexivity].
  destruct (f a) as [t1 [b | e]]; simpl.
  - destruct (g b) as [t2 r]. now rewrite app_assoc.
  - reflexivity.
Qed.

Lemma bind_ext {A B} (m : M A) (f g : A -> M B) :
  (forall a, f a = g a) -> bind m f = bind m g.
Proof.
  intros H. destruct m as [t [a | e]]; simpl; [| reflexivity].
  now rewrite H.
Qed.

Lemma gets_app (a b : list S3Obj) : gets (a ++ b) = gets a ++ gets b.
Proof. unfold gets, fetched. now rewrite filter_app, map_app. Qed.

Lemma gets_cons (o : S3Obj) (rest : list S3Obj) :
  gets (o :: rest) = gets [o] ++ gets rest.
Proof. exact (gets_app [o] rest). Qed.

Section Reads.

Variable W : World.
Variable opts : S3TarS3Options.

Lemma tarLoop_app (a b : list S3Obj) :
  forall tw,
    tarLoop W opts tw (a ++ b)
    = bind (tarLoop W opts tw a) (fun tw1 => tarLoop W opts tw1 b).
Proof.
  induction a as [| o a IH]; intros tw; simpl.
  - destruct (tarLoop W opts tw b) as [t r]. reflexivity.
  - rewrite bind_assoc. apply bind_ext. intros tw1. apply IH.
Qed.

(** The requests of one turn of the loop: the read of the object, unless
    it has inline data; the other steps send nothing. *)
Lemma tarEntry_trace_gets (tw : Writer) (o : S3Obj) :
  trace (tarEntry W opts tw o) = gets [o].
Proof.
  assert (Hrest : forall r md,
            trace (bind (lift (of_sed (applySedExpression W (Key o)
                                         (SedExpression opts))))
                     (fun transformedKey =>
                        bind (lift (WriteHeader W tw
                                      (entryHeader W opts transformedKey o
                                                   md)))
                          (fun tw1 => lift (ioCopy tw1 r)))) = []).
  { intros r md. rewrite trace_bind, trace_lift, app_nil_l.
    case_outcome; [| reflexivity].
    rewrite trace_bind, trace_lift, app_nil_l.
    case_outcome; reflexivity. }
  unfold tarEntry, gets, fetched. rewrite trace_bind. simpl filter.
  destruct (0 <? blen (Data o)); simpl negb; cbv iota.
  - simpl. apply Hrest.
  - unfold downloadS3Data, emit. simpl trace. simpl outcome.
    destruct (of_store _ _) as [[r md] | e]; simpl.
    + f_equal. apply Hrest.
    + reflexivity.
Qed.

Lemma tarLoop_trace_ok (objectList : list S3Obj) :
  forall tw tw',
    outcome (tarLoop W opts tw objectList) = Ok tw' ->
    trace (tarLoop W opts tw objectList) = gets objectList.
Proof.
  induction objectList as [| o rest IH]; intros tw tw'; simpl.
  - reflexivity.
  - rewrite (gets_cons o rest), outcome_bind, trace_bind,
      tarEntry_trace_gets.
    destruct (outcome (tarEntry W opts tw o)) as [tw1 | e];
      [| discriminate].
    intros Hok. now rewrite (IH _ _ Hok).
Qed.

Lemma tarLoop_trace_prefix (objectList : list S3Obj) :
  forall tw,
    exists n, trace (tarLoop W opts tw objectList)
              = gets (firstn n objectList).
Proof.
  induction objectList as [| o rest IH]; intros tw; simpl.
  - exists 0%nat. reflexivity.
  - rewrite trace_bind, tarEntry_trace_gets.
    destruct (outcome (tarEntry W opts tw o)) as [tw1 | e].
    + destruct (IH tw1) as [n Hn]. exists (S n).
      simpl firstn. now rewrite (gets_cons o (firstn n rest)), Hn.
    + exists 1%nat. simpl firstn. apply app_nil_r.
Qed.

Lemma tarGroup_trace_loop (objectList : list S3Obj) :
  trace (tarGroup W objectList opts)
  = trace (tarLoop W opts NewWriter objectList).
Proof.
  unfold tarGroup. rewrite trace_bind.
  destruct (outcome (tarLoop W opts NewWriter objectList)) as [tw | e];
    [| apply app_nil_r].
  rewrite trace_bind, trace_lift, app_nil_l.
  case_outcome; [| apply app_nil_r].
  rewrite trace_bind, trace_lift, app_nil_l.
  case_outcome; apply app_nil_r.
Qed.

Lemma tarGroup_reads_ok (objectList : list S3Obj) (data : bytes) :
  outcome (tarGroup W objectList opts) = Ok data ->
  trace (tarGroup W objectList opts) = gets objectList.
Proof.
  intros Hok. rewrite tarGroup_trace_loop.
  unfold tarGroup in Hok. rewrite outcome_bind in Hok.
  destruct (outcome (tarLoop W opts NewWriter objectList)) as [tw |] eqn:Hl;
    [| discriminate].
  exact (tarLoop_trace_ok _ _ _ Hl).
Qed.

End Reads.

(** X7.  [tarGroup] reads the objects in list order and stops at the first
    failure: its requests are the reads of a start of the list, the objects
    with inline data left out.  When it returns the tar, every object
    without inline data was read exactly once and no object with inline
    data was read. *)
Theorem tarGroup_reads
    (W : World) (objectList : list S3Obj) (opts : S3TarS3Options) :
  (exists n, trace (tarGroup W objectList opts)
             = gets (firstn n objectList))
  /\ (forall data,
        outcome (tarGroup W objectList opts) = Ok data ->
        trace (tarGroup W objectList opts) = gets objectList).
Proof.
  split.
  - rewrite tarGroup_trace_loop. apply tarLoop_trace_prefix.
  - apply tarGroup_reads_ok.
Qed.

(** X8.  When the objects before [o] can all be written and the read of
    [o], which has no inline data, fails, [tarGroup] returns the error of
    that read; it has read the objects before [o] and [o], and none of the
    objects after [o]. *)
Theorem tarGroup_download_failure
    (W : World) (opts : S3TarS3Options)
    (before : list S3Obj) (o : S3Obj) (after : list S3Obj)
    (ms : bytes) (msg : string) :
  members W opts before = Some ms ->
  Data o = [] ->
  GetObject W (Bucket o) (Key o) = Failed msg ->
  tarGroup W (before ++ o :: after) opts
  = (gets before ++ [getOf o], Err (ErrStore "GetObject" msg)).
Proof.
  intros Hms Hdata Hget.
  destruct (tarLoop_ok_intro W opts before NewWriter ms)
    as [tw [Hout [_ _]]]; [simpl; lia | assumption |].
  pose proof (tarLoop_trace_ok W opts before _ _ Hout) as Htr.
  assert (Hentry : tarEntry W opts tw o
                   = ([getOf o], Err (ErrStore "GetObject" msg))).
  { unfold tarEntry, downloadS3Data, getOf. rewrite Hdata, Hget.
    reflexivity. }
  assert (Hloop : tarLoop W opts NewWriter (before ++ o :: after)
                  = (gets before ++ [getOf o],
                     Err (ErrStore "GetObject" msg))).
  { rewrite tarLoop_app.
    rewrite (run_eta (tarLoop W opts NewWriter before)), Hout, Htr.
    simpl. rewrite Hentry. reflexivity. }
  unfold tarGroup. rewrite Hloop. reflexivity.
Qed.

(** X8 on a list whose second object cannot be read. *)
Lemma tarGroup_download_failure_witness :
  tarGroup failingWorld
    ([sized "bc" 2] ++ sized "missing" 7 :: [sized "never" 5]) demoOpts
  = (gets [sized "bc" 2] ++ [getOf (sized "missing" 7)],
     Err (ErrStore "GetObject" "NoSuchKey")).
Proof.
  apply (tarGroup_download_failure failingWorld demoOpts
           [sized "bc" 2] (sized "missing" 7) [sized "never" 5]
           (demoHeaderBlock "bc" ++ list_byte_of_string "bc"
            ++ zeros 510)).
  - vm_compute. reflexivity.
  - reflexivity.
  - reflexivity.
Defined.

(** ** A payload of the wrong length *)

Lemma members_In (W : World) (opts : S3TarS3Options)
    (objectList : list S3Obj) :
  forall ms o,
    members W opts objectList = Some ms -> In o objectList ->
    exists m, member W opts o = Some m.
Proof.
  induction objectList as [| x rest IH]; intros ms o Hms Hin; simpl in *.
  - contradiction.
  - destruct (member W opts x) as [m |] eqn:Hm; [| discriminate].
    destruct (members W opts rest) as [ms' |]; [| discriminate].
    destruct Hin as [<- | Hin]; [eauto |].
    exact (IH ms' o eq_refl Hin).
Qed.

Lemma wrong_length_no_tar (W : World) (opts : S3TarS3Options)
    (objectList : list S3Obj) (o : S3Obj) (payload : bytes) (md : metadata) :
  In o objectList ->
  payloadOf W o = Some (payload, md) ->
  0 <= Size o ->
  blen payload <> Size o ->
  singlePassTar W opts objectList = None.
Proof.
  intros Hin Hp Hpos Hlen.
  destruct (singlePassTar W opts objectList) as [data |] eqn:Htar;
    [| reflexivity].
  exfalso.
  apply singlePassTar_members in Htar. destruct Htar as [ms [Hms _]].
  destruct (members_In W opts objectList ms o Hms Hin) as [m Hm].
  destruct (member_length W opts o m Hm)
    as [payload' [md' [blk [Hp' [_ [_ [_ [_ Heq]]]]]]]].
  rewrite Hp in Hp'. inversion Hp'; subst. auto.
Qed.

Lemma outcome_cases {A} (m : M A) :
  (exists a, outcome m = Ok a) \/ (exists e, outcome m = Err e).
Proof. destruct (outcome m); eauto. Qed.

(** X9.  When the payload of a member, inline or read from the store, has
    not the length that its [Size] says, no archive is made: [tarGroup]
    returns an error and so does [buildInMemoryConcat], on either path. *)
Theorem wrong_length_rejected
    (W : World) (objectList : list S3Obj) (estimatedSize : Z)
    (opts : S3TarS3Options) (o : S3Obj) (payload : bytes) (md : metadata) :
  In o objectList ->
  payloadOf W o = Some (payload, md) ->
  0 <= Size o ->
  blen payload <> Size o ->
  (exists e, outcome (tarGroup W objectList opts) = Err e)
  /\ (exists e,
        outcome (buildInMemoryConcat W objectList estimatedSize opts)
        = Err e).
Proof.
  intros Hin Hp Hpos Hlen.
  pose proof (wrong_length_no_tar W opts objectList o payload md
                Hin Hp Hpos Hlen) as Hnone.
  split.
  - destruct (outcome_cases (tarGroup W objectList opts))
      as [[data Hok] | Herr]; [| assumption].
    apply tarGroup_ok in Hok. congruence.
  - destruct (outcome_cases
                (buildInMemoryConcat W objectList estimatedSize opts))
      as [[obj Hok] | Herr]; [| assumption].
    exfalso.
    destruct (Z.lt_ge_cases estimatedSize fileSizeMin) as [Hsmall | Hbig].
    + destruct (small_archive _ _ _ _ _ Hsmall Hok) as [Htar _]. congruence.
    + destruct (multipart_archive W objectList estimatedSize opts obj Hbig)
        as [parts [_ [_ [_ Htar]]]];
        [intros ->; contradiction | assumption | congruence].
Qed.

(** X9 on an object of two bytes announced as three. *)
Lemma wrong_length_rejected_witness :
  (exists e, outcome (tarGroup demoWorld [sized "bc" 3] demoOpts) = Err e)
  /\ (exists e,
        outcome (buildInMemoryConcat demoWorld [sized "bc" 3] 10 demoOpts)
        = Err e).
Proof.
  apply (wrong_length_rejected demoWorld [sized "bc" 3] 10 demoOpts
           (sized "bc" 3) (list_byte_of_string "bc") []).
  - left. reflexivity.
  - reflexivity.
  - vm_compute. discriminate.
  - vm_compute. discriminate.
Defined.

(** ** What a run reads *)

Lemma readsOf_app (t u : list Event) :
  readsOf (t ++ u) = readsOf t ++ readsOf u.
Proof. apply filter_app. Qed.

Lemma readsOf_readsOnly (t : list Event) : readsOnly t -> readsOf t = t.
Proof.
  induction 1 as [| e t He _ IH]; simpl; [reflexivity |].
  now rewrite He, IH.
Qed.

Section RunReads.

Variable W : World.
Variable opts : S3TarS3Options.

Lemma groupTask_reads (uploadId : string) (n i : Z) (group : list S3Obj)
    (done : CompletedPart * Z) :
  outcome (groupTask W opts uploadId n i group) = Ok done ->
  readsOf (trace (groupTask W opts uploadId n i group)) = gets group.
Proof.
  unfold groupTask. rewrite outcome_bind, trace_bind, readsOf_app.
  rewrite (readsOf_readsOnly _ (tarGroup_trace W opts group)).
  destruct (outcome (tarGroup W group opts)) as [data |] eqn:Htar;
    [| discriminate].
  rewrite (tarGroup_reads_ok W opts group data Htar).
  intros _.
  rewrite trace_bind, readsOf_app.
  destruct (negb (i =? n - 1));
    [unfold dropTrailer; destruct (blen data - 1024 <? 0) |];
    simpl;
    try (destruct (of_store _ _) as [[etag sha] | e]; simpl);
    apply app_nil_r.
Qed.

Lemma groupTasks_reads (uploadId : string) (n : Z)
    (groups : list (list S3Obj)) :
  forall i done,
    outcome (waitAll (groupTasks W opts uploadId n i groups)) = Ok done ->
    readsOf (trace (waitAll (groupTasks W opts uploadId n i groups)))
    = gets (concat groups).
Proof.
  induction groups as [| g rest IH]; intros i done; cbn [groupTasks concat].
  - reflexivity.
  - rewrite outcome_waitAll_cons, trace_waitAll_cons, readsOf_app, gets_app.
    destruct (outcome (groupTask _ _ _ _ _ g)) as [d | e] eqn:Hg;
      [| discriminate].
    destruct (outcome (waitAll _)) as [l | e] eqn:Hrest; [| discriminate].
    intros _.
    now rewrite (groupTask_reads _ _ _ _ _ Hg), (IH _ _ Hrest).
Qed.

End RunReads.

Lemma run_reads (W : World) (objectList : list S3Obj) (estimatedSize : Z)
    (opts : S3TarS3Options) (obj : S3Obj) :
  outcome (buildInMemoryConcat W objectList estimatedSize opts) = Ok obj ->
  readsOf (trace (buildInMemoryConcat W objectList estimatedSize opts))
  = gets objectList.
Proof.
  intros Hok.
  destruct (run_ok_checks _ _ _ _ _ Hok) as [Hlargest Hbudget].
  destruct (Z.lt_ge_cases estimatedSize fileSizeMin) as [Hsmall | Hbig].
  - rewrite run_small in * by assumption.
    rewrite outcome_bind in Hok. rewrite trace_bind, readsOf_app.
    rewrite (readsOf_readsOnly _ (tarGroup_trace W opts objectList)).
    destruct (outcome (tarGroup W objectList opts)) as [data |] eqn:Htar;
      [| discriminate].
    rewrite (tarGroup_reads_ok W opts objectList data Htar).
    unfold uploadObject, emit, bind, ret. simpl.
    destruct (of_store _ _); simpl; apply app_nil_r.
  - specialize (Hbudget Hbig). unfold groupsOf in Hbudget.
    rewrite run_multipart in * by assumption.
    rewrite outcome_bind in Hok. rewrite trace_bind, readsOf_app.
    unfold emit at 1 2 in Hok. unfold emit at 1 2. simpl outcome in *.
    simpl trace.
    destruct (of_store "CreateMultipartUpload" _) as [uploadId | e];
      [| discriminate].
    rewrite outcome_bind in Hok. rewrite trace_bind, readsOf_app.
    destruct (outcome (processGroups W opts uploadId _)) as [done |] eqn:Hpg;
      [| discriminate].
    unfold processGroups in Hpg.
    unfold processGroups at 1.
    rewrite (groupTasks_reads W opts uploadId _ _ 0 done Hpg).
    rewrite splitSlice_concat.
    destruct (of_store "CompleteMultipartUpload" _)
      as [[[bucket key] etag] | e]; simpl; apply app_nil_r.
Qed.

(** X10.  On a run of [buildInMemoryConcat] that ends well, on either
    path, every object without inline data was read from the store exactly
    once and no object with inline data was read: the [GetObject] requests
    of the run are those of the list, in some order. *)
Theorem run_reads_each_object_once
    (W : World) (objectList : list S3Obj) (estimatedSize : Z)
    (opts : S3TarS3Options) (obj : S3Obj) :
  outcome (buildInMemoryConcat W objectList estimatedSize opts) = Ok obj ->
  Permutation
    (readsOf (trace (buildInMemoryConcat W objectList estimatedSize opts)))
    (gets objectList).
Proof.
  intros Hok. rewrite (run_reads W objectList estimatedSize opts obj Hok).
  apply Permutation_refl.
Qed.

(** X10 on a list of one inline object and one object of the store. *)
Lemma run_reads_each_object_once_witness :
  Permutation
    (readsOf (trace (buildInMemoryConcat demoWorld
                       [inline "a" [x01; x02; x03]; sized "bc" 2]
                       fileSizeMin demoOpts)))
    [EvGetObject "src" "bc"].
Proof.
  apply (run_reads_each_object_once demoWorld
           [inline "a" [x01; x02; x03]; sized "bc" 2] fileSizeMin demoOpts
           (mkS3Obj "dst" "archive.tar" "etag-mpu" 3072 0 [])).
  vm_compute. reflexivity.
Defined.

(** ** The errors of a run *)

Lemma raisesOnly_bind {A B} (P : Error -> Prop) (m : M A) (k : A -> M B) :
  raisesOnly P m ->
  (forall a, outcome m = Ok a -> raisesOnly P (k a)) ->
  raisesOnly P (bind m k).
Proof.
  unfold raisesOnly. intros Hm Hk e. rewrite outcome_bind.
  destruct (outcome m) as [a | e'] eqn:Hout.
  - apply (Hk a eq_refl).
  - intros E. apply Hm. congruence.
Qed.

Lemma raisesOnly_ret {A} (P : Error -> Prop) (a : A) : raisesOnly P (ret a).
Proof. intros e E. discriminate. Qed.

Lemma downstream_store {A} (ev : Event) (op : string) (r : reply A) :
  In op storeOps -> raisesOnly downstream (emit ev (of_store op r)).
Proof.
  intros Hop e. destruct r; simpl; intros E; inversion E. exact Hop.
Qed.

Lemma downstream_sed {A} (r : reply A) :
  raisesOnly downstream (lift (of_sed r)).
Proof. intros e. destruct r; simpl; intros E; inversion E. exact I. Qed.

Lemma downstream_Flush (tw : Writer) : raisesOnly downstream (lift (Flush tw)).
Proof.
  intros e. unfold Flush. destruct (0 <? nb tw); simpl; intros E;
    inversion E. exact I.
Qed.

Lemma downstream_waitAll {A} (tasks : list (M A)) :
  Forall (raisesOnly downstream) tasks ->
  raisesOnly downstream (waitAll tasks).
Proof.
  induction 1 as [| m tasks Hm _ IH]; intros e.
  - simpl. discriminate.
  - rewrite outcome_waitAll_cons.
    destruct (outcome m) as [a | e1] eqn:Hout.
    + destruct (outcome (waitAll tasks)) as [l | e2] eqn:Hrest;
        [discriminate |].
      intros E. apply IH. congruence.
    + intros E. apply Hm. congruence.
Qed.

Section RunErrors.

Variable W : World.
Variable opts : S3TarS3Options.

Lemma downstream_WriteHeader (tw : Writer) (h : Header) :
  raisesOnly downstream (lift (WriteHeader W tw h)).
Proof.
  intros e. unfold WriteHeader, Flush.
  destruct (0 <? nb tw); simpl; [intros E; inversion E; exact I |].
  destruct (encodeHeader W h); simpl; intros E; inversion E. exact I.
Qed.

Lemma downstream_ioCopy (tw : Writer) (r : bytes) :
  raisesOnly downstream (lift (ioCopy tw r)).
Proof.
  intros e. destruct r as [| b r]; simpl; [discriminate |].
  unfold Write. destruct (nb tw <? blen (b :: r)); simpl; intros E;
    inversion E. exact I.
Qed.

Lemma downstream_Close (tw : Writer) : raisesOnly downstream (lift (Close tw)).
Proof.
  intros e. unfold Close, Flush.
  destruct (0 <? nb tw); simpl; intros E; inversion E. exact I.
Qed.

Lemma downstream_tarEntry (tw : Writer) (o : S3Obj) :
  raisesOnly downstream (tarEntry W opts tw o).
Proof.
  unfold tarEntry. apply raisesOnly_bind.
  - destruct (0 <? blen (Data o)); [apply raisesOnly_ret |].
    apply downstream_store. simpl. auto.
  - intros [r md] _. apply raisesOnly_bind; [apply downstream_sed |].
    intros name _. apply raisesOnly_bind; [apply downstream_WriteHeader |].
    intros tw1 _. apply downstream_ioCopy.
Qed.

Lemma downstream_tarLoop (objectList : list S3Obj) :
  forall tw, raisesOnly downstream (tarLoop W opts tw objectList).
Proof.
  induction objectList as [| o rest IH]; intros tw; simpl.
  - apply raisesOnly_ret.
  - apply raisesOnly_bind; [apply downstream_tarEntry |].
    intros tw1 _. apply IH.
Qed.

Lemma downstream_tarGroup (objectList : list S3Obj) :
  raisesOnly downstream (tarGroup W objectList opts).
Proof.
  unfold tarGroup.
  apply raisesOnly_bind; [apply downstream_tarLoop |].
  intros tw _. apply raisesOnly_bind; [apply downstream_Flush |].
  intros tw1 _. apply raisesOnly_bind; [apply downstream_Close |].
  intros tw2 _. apply raisesOnly_ret.
Qed.

(** The goroutine of a group: the slice expression comes after a tar that
    went well, so it does not panic. *)
Lemma downstream_groupTask (uploadId : string) (n i : Z)
    (group : list S3Obj) :
  raisesOnly downstream (groupTask W opts uploadId n i group).
Proof.
  unfold groupTask.
  apply raisesOnly_bind; [apply downstream_tarGroup |].
  intros data Htar. apply tarGroup_ok in Htar.
  apply raisesOnly_bind.
  - destruct (negb (i =? n - 1)); [| apply raisesOnly_ret].
    rewrite (dropTrailer_tar W opts group data Htar).
    apply raisesOnly_ret.
  - intros data1 _. apply raisesOnly_bind.
    + apply downstream_store. simpl. auto.
    + intros [etag sha] _. apply raisesOnly_ret.
Qed.

Lemma downstream_groupTasks (uploadId : string) (n : Z)
    (groups : list (list S3Obj)) :
  forall i,
    Forall (raisesOnly downstream) (groupTasks W opts uploadId n i groups).
Proof.
  induction groups as [| g rest IH]; intros i; simpl; constructor.
  - apply downstream_groupTask.
  - apply IH.
Qed.

(** The errors of [buildInMemoryConcat], by the place they come from. *)
Lemma run_errors (objectList : list S3Obj) (estimatedSize : Z) (e : Error) :
  outcome (buildInMemoryConcat W objectList estimatedSize opts) = Err e ->
  (e = ErrLargestObject /\ partSizeMax < findLargestObject objectList)
  \/ (e = ErrPartBudget
            (Z.of_nat (length (groupsOf W estimatedSize opts objectList)))
      /\ findLargestObject objectList <= partSizeMax
      /\ fileSizeMin <= estimatedSize
      /\ maxPartNumLimit
         < Z.of_nat (length (groupsOf W estimatedSize opts objectList)))
  \/ downstream e.
Proof.
  destruct (Z.lt_ge_cases partSizeMax (findLargestObject objectList))
    as [Hlarge | Hlargest].
  { rewrite run_too_large by assumption. simpl.
    intros E. inversion E. left. auto. }
  destruct (Z.lt_ge_cases estimatedSize fileSizeMin) as [Hsmall | Hbig].
  { rewrite run_small by assumption. intros E. right. right.
    revert e E.
    apply raisesOnly_bind; [apply downstream_tarGroup |].
    intros data _. unfold uploadObject.
    apply raisesOnly_bind; [apply downstream_store; simpl; auto |].
    intros etag _. apply raisesOnly_ret. }
  destruct (Z.lt_ge_cases maxPartNumLimit
              (Z.of_nat (length (groupsOf W estimatedSize opts objectList))))
    as [Hover | Hfit].
  { unfold groupsOf in *. rewrite run_over_budget by assumption. simpl.
    intros E. inversion E. right. left. auto. }
  unfold groupsOf in Hfit. rewrite run_multipart by assumption.
  intros E. right. right. revert e E.
  apply raisesOnly_bind; [apply downstream_store; simpl; auto |].
  intros uploadId _. apply raisesOnly_bind.
  - apply downstream_waitAll, downstream_groupTasks.
  - intros done _.
    apply raisesOnly_bind; [apply downstream_store; simpl; auto 6 |].
    intros [[bucket key] etag] _. apply raisesOnly_ret.
Qed.

End RunErrors.

(** X11.  An error of [buildInMemoryConcat] is the size error, with a
    member above [partSizeMax]; or the part-budget error, which carries the
    number of groups, on the multipart path with more than
    [maxPartNumLimit] groups; or an error returned by one of the five
    operations of the client, by [applySedExpression] or by the tar writer.
    In particular the slice expression [data[0:len(data)-1024]] never
    panics. *)
Theorem run_error_classes
    (W : World) (objectList : list S3Obj) (estimatedSize : Z)
    (opts : S3TarS3Options) :
  match outcome (buildInMemoryConcat W objectList estimatedSize opts) with
  | Ok _ => True
  | Err e =>
      e <> PanicSliceBounds
      /\ ((e = ErrLargestObject
           /\ partSizeMax < findLargestObject objectList)
          \/ (e = ErrPartBudget
                    (Z.of_nat (length (groupsOf W estimatedSize opts
                                                objectList)))
              /\ findLargestObject objectList <= partSizeMax
              /\ fileSizeMin <= estimatedSize
              /\ maxPartNumLimit
                 < Z.of_nat (length (groupsOf W estimatedSize opts
                                              objectList)))
          \/ downstream e)
  end.
Proof.
  destruct (outcome (buildInMemoryConcat W objectList estimatedSize opts))
    as [obj | e] eqn:Hout; [exact I |].
  pose proof (run_errors W opts objectList estimatedSize e Hout) as H.
  split; [| exact H].
  intros ->.
  destruct H as [[H _] | [[H _] | H]];
    [discriminate | discriminate | exact H].
Qed.

(** X12.  A list of at most [maxPartNumLimit] objects never meets the
    part-budget error, whatever the sizes and the part size: there are
    never more groups than objects. *)
Theorem few_objects_within_budget
    (W : World) (objectList : list S3Obj) (estimatedSize : Z)
    (opts : S3TarS3Options) (n : Z) :
  Z.of_nat (length objectList) <= maxPartNumLimit ->
  outcome (buildInMemoryConcat W objectList estimatedSize opts)
  <> Err (ErrPartBudget n).
Proof.
  intros Hfew Hout.
  destruct (run_errors W opts objectList estimatedSize _ Hout)
    as [[H _] | [[_ [_ [_ Hover]]] | H]];
    [discriminate | | exact H].
  unfold groupsOf in Hover.
  pose proof (length_concat_nonempty
                (splitSliceBySizeLimit
                   (findMinimumPartSize W estimatedSize
                      (UserMaxPartSize opts)) objectList)) as Hlen.
  rewrite splitSlice_concat in Hlen.
  assert (Hne : Forall (fun g : list S3Obj => g <> [])
                  (splitSliceBySizeLimit
                     (findMinimumPartSize W estimatedSize
                        (UserMaxPartSize opts)) objectList))
    by (unfold splitSliceBySizeLimit; apply splitLoop_nonempty; constructor).
  specialize (Hlen Hne). lia.
Qed.

(** X12 on a list of two objects. *)
Lemma few_objects_within_budget_witness :
  outcome (buildInMemoryConcat demoWorld
             [sized "a" (6 * MiB); sized "b" (6 * MiB)] (12 * MiB) demoOpts)
  <> Err (ErrPartBudget 2).
Proof.
  apply few_objects_within_budget.
  vm_compute. discriminate.
Defined.

(** ** The writes of the multipart path *)

Section MultipartWrites.

Variable W : World.
Variable opts : S3TarS3Options.
Variable ngroups : Z.
Variable uploadId : string.

Lemma groupTasks_writes_all (groups : list (list S3Obj)) :
  forall i,
    0 <= i ->
    i + Z.of_nat (length groups) < 2 ^ 31 ->
    writes (trace (waitAll (groupTasks W opts uploadId ngroups i groups)))
    = map (uploadOf uploadId (DstBucket opts) (DstKey opts))
          (sentParts W opts ngroups i groups).
Proof.
  induction groups as [| g rest IH]; intros i Hi Hn;
    cbn [groupTasks sentParts].
  - reflexivity.
  - rewrite trace_waitAll_cons, writes_app, groupTask_writes, map_app.
    rewrite (IH (i + 1)) by (simpl length in Hn; lia).
    rewrite wrap32_small by (simpl length in Hn; lia).
    destruct (groupBuffer W opts (i =? ngroups - 1) g); reflexivity.
Qed.

Lemma groupTask_ok_reply (i : Z) (group : list S3Obj)
    (part : CompletedPart) (size : Z) :
  outcome (groupTask W opts uploadId ngroups i group) = Ok (part, size) ->
  exists body,
    groupBuffer W opts (i =? ngroups - 1) group = Some body /\
    PartNumber part = wrap32 (i + 1) /\
    UploadPart W uploadId (DstBucket opts) (DstKey opts)
               (wrap32 (i + 1)) body
    = Done (PartETag part, ChecksumSHA256 part).
Proof.
  unfold groupTask, groupBuffer.
  rewrite outcome_bind.
  destruct (outcome (tarGroup W group opts)) as [data | e] eqn:Hout;
    [| discriminate].
  apply tarGroup_ok in Hout. rewrite Hout.
  destruct (i =? ngroups - 1); simpl.
  - unfold uploadPart, emit, bind, ret. simpl.
    destruct (UploadPart W _ _ _ _ _) as [[etag sha] | msg] eqn:Hup; simpl;
      [| discriminate].
    intros E. inversion E. simpl. eauto.
  - rewrite (dropTrailer_tar _ _ _ _ Hout).
    unfold uploadPart, emit, bind, ret. simpl.
    destruct (UploadPart W _ _ _ _ _) as [[etag sha] | msg] eqn:Hup; simpl;
      [| discriminate].
    intros E. inversion E. simpl. eauto.
Qed.

Lemma groupTasks_ok_reply (groups : list (list S3Obj)) :
  forall i done,
    0 <= i ->
    i + Z.of_nat (length groups) < 2 ^ 31 ->
    outcome (waitAll (groupTasks W opts uploadId ngroups i groups))
    = Ok done ->
    exists parts,
      expectedParts W opts ngroups i groups = Some parts /\
      Forall2 (fun p c =>
                 PartNumber c = fst p /\
                 UploadPart W uploadId (DstBucket opts) (DstKey opts)
                            (fst p) (snd p)
                 = Done (PartETag c, ChecksumSHA256 c))
              parts (map fst done).
Proof.
  induction groups as [| g rest IH]; intros i done Hi Hn;
    cbn [expectedParts groupTasks].
  - intros E. inversion E. exists []. split; [reflexivity | constructor].
  - rewrite outcome_waitAll_cons.
    destruct (outcome (groupTask _ _ _ _ _ g)) as [[part size] | e] eqn:Hg;
      [| discriminate].
    destruct (outcome (waitAll _)) as [l | e] eqn:Hrest; [| discriminate].
    intros E. inversion E; subst done. clear E.
    apply groupTask_ok_reply in Hg.
    destruct Hg as [body [Hbody [Hnum Hup]]].
    rewrite wrap32_small in Hnum, Hup by (simpl length in Hn; lia).
    destruct (IH (i + 1) l) as [ps [Hps Hall]];
      [lia | simpl length in Hn; lia | assumption |].
    rewrite Hbody, Hps. eexists. split; [reflexivity |].
    simpl. constructor; [split; assumption | assumption].
Qed.

End MultipartWrites.

Section MultipartTrace.

Variable W : World.
Variable objectList : list S3Obj.
Variable estimatedSize : Z.
Variable opts : S3TarS3Options.

Let run := buildInMemoryConcat W objectList estimatedSize opts.
Let groups := groupsOf W estimatedSize opts objectList.
Let ngroups := Z.of_nat (length groups).

Hypothesis Hlargest : findLargestObject objectList <= partSizeMax.
Hypothesis Hbig : fileSizeMin <= estimatedSize.
Hypothesis Hbudget : ngroups <= maxPartNumLimit.

(** All the writes of the multipart path. *)
Lemma multipart_all_writes :
  writes (trace run)
  = EvCreateMultipartUpload (DstBucket opts) (DstKey opts)
    :: match CreateMultipartUpload W (DstBucket opts) (DstKey opts) with
       | Failed _ => []
       | Done uploadId =>
           map (uploadOf uploadId (DstBucket opts) (DstKey opts))
               (sentParts W opts ngroups 0 groups)
           ++ match outcome (processGroups W opts uploadId groups) with
              | Ok done =>
                  [EvCompleteMultipartUpload uploadId (DstBucket opts)
                     (DstKey opts) (map fst done)]
              | Err _ => []
              end
       end.
Proof.
  unfold run. rewrite run_multipart by assumption.
  fold (groupsOf W estimatedSize opts objectList). fold groups.
  rewrite trace_bind. unfold emit at 1 2. simpl trace. simpl outcome.
  change ([EvCreateMultipartUpload (DstBucket opts) (DstKey opts)] ++ ?x)
    with (EvCreateMultipartUpload (DstBucket opts) (DstKey opts) :: x).
  cbn [writes filter is_write]. f_equal.
  match goal with
  | |- filter is_write ?t = ?r => change (writes t = r)
  end.
  destruct (CreateMultipartUpload W (DstBucket opts) (DstKey opts))
    as [uploadId | msg]; simpl of_store; cbv iota; [| reflexivity].
  rewrite trace_bind, writes_app. f_equal.
  - unfold processGroups. fold ngroups.
    apply groupTasks_writes_all; [lia |].
    fold ngroups. unfold maxPartNumLimit in Hbudget. lia.
  - destruct (outcome (processGroups W opts uploadId groups)) as [done | e];
      [| reflexivity].
    unfold emit, bind, ret. simpl.
    destruct (of_store _ _) as [[[bucket key] etag] | e]; reflexivity.
Qed.

End MultipartTrace.

Lemma In_writes (e : Event) (t : list Event) :
  In e t -> is_write e = true -> In e (writes t).
Proof. intros Hin He. apply filter_In. auto. Qed.

(** X13.  On the multipart path, once the upload is created, every group
    that can be tarred has its part sent under the number of its group,
    whether or not another group failed: the goroutines are not stopped by
    the failure of one of them.  The last group that can be tarred keeps
    its trailer only if it is the last group of all. *)
Theorem parts_sent_despite_failures
    (W : World) (objectList : list S3Obj) (estimatedSize : Z)
    (opts : S3TarS3Options) (uploadId : string) :
  findLargestObject objectList <= partSizeMax ->
  fileSizeMin <= estimatedSize ->
  Z.of_nat (length (groupsOf W estimatedSize opts objectList))
  <= maxPartNumLimit ->
  CreateMultipartUpload W (DstBucket opts) (DstKey opts) = Done uploadId ->
  uploadedParts (trace (buildInMemoryConcat W objectList estimatedSize opts))
  = sentParts W opts
      (Z.of_nat (length (groupsOf W estimatedSize opts objectList))) 0
      (groupsOf W estimatedSize opts objectList).
Proof.
  intros Hlargest Hbig Hbudget Hcreate.
  rewrite <- uploadedParts_writes.
  rewrite (multipart_all_writes W objectList estimatedSize opts
             Hlargest Hbig Hbudget), Hcreate.
  cbn [uploadedParts].
  rewrite uploadedParts_app, uploadedParts_uploads.
  destruct (outcome (processGroups W opts uploadId _)); simpl;
    apply app_nil_r.
Qed.

(** X13 on two groups: the object of the first cannot be read, the part of
    the second is sent all the same, and the run ends on the error of the
    read. *)
Lemma parts_sent_despite_failures_witness :
  uploadedParts
    (trace (buildInMemoryConcat failingWorld
              [sized "missing" (6 * MiB); inline "a" [x01; x02; x03]]
              (7 * MiB) demoOpts))
  = sentParts failingWorld demoOpts
      (Z.of_nat (length (groupsOf failingWorld (7 * MiB) demoOpts
                           [sized "missing" (6 * MiB);
                            inline "a" [x01; x02; x03]]))) 0
      (groupsOf failingWorld (7 * MiB) demoOpts
         [sized "missing" (6 * MiB); inline "a" [x01; x02; x03]])
  /\ map fst
       (uploadedParts
          (trace (buildInMemoryConcat failingWorld
                    [sized "missing" (6 * MiB); inline "a" [x01; x02; x03]]
                    (7 * MiB) demoOpts))) = [2]
  /\ outcome (buildInMemoryConcat failingWorld
                [sized "missing" (6 * MiB); inline "a" [x01; x02; x03]]
                (7 * MiB) demoOpts)
     = Err (ErrStore "GetObject" "NoSuchKey").
Proof.
  split; [| split; reflexivity].
  apply (parts_sent_despite_failures failingWorld
           [sized "missing" (6 * MiB); inline "a" [x01; x02; x03]]
           (7 * MiB) demoOpts "upload-1").
  - vm_compute. discriminate.
  - vm_compute. discriminate.
  - vm_compute. discriminate.
  - reflexivity.
Defined.

(** X14.  A [CompleteMultipartUpload] is sent only for the upload that was
    created, at the destination, after every group was tarred and every
    part was accepted; it lists one part per group, in group order, each
    with the number under which its body was sent and with the ETag and
    the checksum that [UploadPart] returned for it. *)
Theorem completion_lists_uploaded_parts
    (W : World) (objectList : list S3Obj) (estimatedSize : Z)
    (opts : S3TarS3Options) (uploadId bucket key : string)
    (completed : list CompletedPart) :
  In (EvCompleteMultipartUpload uploadId bucket key completed)
     (trace (buildInMemoryConcat W objectList estimatedSize opts)) ->
  CreateMultipartUpload W (DstBucket opts) (DstKey opts) = Done uploadId
  /\ bucket = DstBucket opts /\ key = DstKey opts
  /\ exists parts,
       expectedParts W opts
         (Z.of_nat (length (groupsOf W estimatedSize opts objectList))) 0
         (groupsOf W estimatedSize opts objectList) = Some parts
       /\ uploadedParts
            (trace (buildInMemoryConcat W objectList estimatedSize opts))
          = parts
       /\ Forall2 (fun p c =>
                     PartNumber c = fst p /\
                     UploadPart W uploadId (DstBucket opts) (DstKey opts)
                                (fst p) (snd p)
                     = Done (PartETag c, ChecksumSHA256 c))
                  parts completed.
Proof.
  intros Hin. apply In_writes in Hin; [| reflexivity].
  destruct (Z.lt_ge_cases partSizeMax (findLargestObject objectList))
    as [Hlarge | Hlargest].
  { rewrite run_too_large in Hin by assumption. contradiction. }
  destruct (Z.lt_ge_cases estimatedSize fileSizeMin) as [Hsmall | Hbig].
  { rewrite small_writes in Hin by assumption.
    destruct (singlePassTar W opts objectList); simpl in Hin;
      [destruct Hin as [E | []]; discriminate | contradiction]. }
  destruct (Z.lt_ge_cases maxPartNumLimit
              (Z.of_nat (length (groupsOf W estimatedSize opts objectList))))
    as [Hover | Hfit].
  { unfold groupsOf in Hover.
    rewrite run_over_budget in Hin by assumption. contradiction. }
  rewrite (multipart_all_writes W objectList estimatedSize opts
             Hlargest Hbig Hfit) in Hin.
  destruct Hin as [E | Hin]; [discriminate |].
  destruct (CreateMultipartUpload W (DstBucket opts) (DstKey opts))
    as [id | msg] eqn:Hcreate; [| contradiction].
  apply in_app_or in Hin. destruct Hin as [Hin | Hin].
  { apply in_map_iff in Hin. destruct Hin as [p [E _]]. discriminate. }
  destruct (outcome (processGroups W opts id _)) as [done | e] eqn:Hpg;
    [| contradiction].
  destruct Hin as [E | []]. inversion E; subst. clear E.
  split; [reflexivity |]. split; [reflexivity |]. split; [reflexivity |].
  unfold processGroups in Hpg.
  assert (H0 : 0 <= 0) by lia.
  assert (Hn : 0 + Z.of_nat (length (groupsOf W estimatedSize opts
                                              objectList)) < 2 ^ 31)
    by (unfold maxPartNumLimit in Hfit; lia).
  destruct (groupTasks_ok_reply W opts _ uploadId _ 0 done H0 Hn Hpg)
    as [parts [Hparts Hall]].
  exists parts. split; [exact Hparts |]. split; [| exact Hall].
  unfold groupsOf in Hfit, Hparts.
  destruct (multipart_writes W objectList estimatedSize opts
              Hlargest Hbig Hfit uploadId parts Hcreate Hparts)
    as [tail [Hw [Htail _]]].
  rewrite <- uploadedParts_writes, Hw. simpl.
  rewrite uploadedParts_app, uploadedParts_uploads, Htail.
  apply app_nil_r.
Qed.

(** X14 on a run of one group. *)
Lemma completion_lists_uploaded_parts_witness :
  CreateMultipartUpload demoWorld (DstBucket demoOpts) (DstKey demoOpts)
  = Done "upload-1"%string
  /\ "dst"%string = DstBucket demoOpts
  /\ "archive.tar"%string = DstKey demoOpts
  /\ exists parts,
       expectedParts demoWorld demoOpts
         (Z.of_nat (length (groupsOf demoWorld fileSizeMin demoOpts
                              [inline "a" [x01; x02; x03]]))) 0
         (groupsOf demoWorld fileSizeMin demoOpts
            [inline "a" [x01; x02; x03]]) = Some parts
       /\ uploadedParts
            (trace (buildInMemoryConcat demoWorld
                      [inline "a" [x01; x02; x03]] fileSizeMin demoOpts))
          = parts
       /\ Forall2 (fun p c =>
                     PartNumber c = fst p /\
                     UploadPart demoWorld "upload-1" (DstBucket demoOpts)
                                (DstKey demoOpts) (fst p) (snd p)
                     = Done (PartETag c, ChecksumSHA256 c))
                  parts [mkPart "etag-part" 1 "sha"].
Proof.
  apply (completion_lists_uploaded_parts demoWorld
           [inline "a" [x01; x02; x03]] fileSizeMin demoOpts
           "upload-1" "dst" "archive.tar" [mkPart "etag-part" 1 "sha"]).
  vm_compute. tauto.
Defined.

(** ** The size that a run returns *)

Lemma sum_blen_concat (bodies : list bytes) :
  fold_right Z.add 0 (map blen bodies) = blen (concat bodies).
Proof.
  induction bodies as [| b bodies IH]; simpl; [reflexivity |].
  rewrite blen_app, IH. reflexivity.
Qed.

Lemma sumSlice_blen (bodies : list bytes) :
  sumSlice (map blen bodies) = wrap64 (blen (concat bodies)).
Proof.
  unfold sumSlice. change 0 with (wrap64 0) at 1.
  rewrite sumSlice_from, sum_blen_concat. reflexivity.
Qed.

(** X15.  The object that [buildInMemoryConcat] returns carries the length
    of the archive it stored, the body of the [PutObject] or the parts put
    end to end, as long as that length is below 2^63. *)
Theorem returned_size_is_archive_length
    (W : World) (objectList : list S3Obj) (estimatedSize : Z)
    (opts : S3TarS3Options) (obj : S3Obj) :
  outcome (buildInMemoryConcat W objectList estimatedSize opts) = Ok obj ->
  blen (archiveOf (trace (buildInMemoryConcat W objectList estimatedSize
                                              opts))) < 2 ^ 63 ->
  Size obj
  = blen (archiveOf (trace (buildInMemoryConcat W objectList estimatedSize
                                                opts))).
Proof.
  intros Hok Hlen.
  destruct (run_ok_checks _ _ _ _ _ Hok) as [Hlargest Hbudget].
  destruct (Z.lt_ge_cases estimatedSize fileSizeMin) as [Hsmall | Hbig].
  - destruct (small_ok W objectList estimatedSize opts Hlargest Hsmall
                obj Hok) as [data [Hdata Hsize]].
    destruct (small_archive _ _ _ _ _ Hsmall Hok) as [Htar _].
    rewrite Hdata in Htar. inversion Htar as [Heq].
    rewrite <- Heq. exact Hsize.
  - specialize (Hbudget Hbig). unfold groupsOf in Hbudget.
    destruct (multipart_ok W objectList estimatedSize opts
                Hlargest Hbig Hbudget obj Hok)
      as [uploadId [parts [_ [Hparts Hsize]]]].
    destruct (multipart_parts W objectList estimatedSize opts
                Hlargest Hbig Hbudget obj Hok)
      as [parts' [Hparts' [_ Har]]].
    rewrite Hparts in Hparts'. inversion Hparts'; subst parts'.
    rewrite Har in *. rewrite Hsize.
    rewrite <- (map_map snd blen), sumSlice_blen.
    apply wrap64_small. pose proof (blen_nonneg (concat (map snd parts))).
    unfold in_int64. lia.
Qed.

(** X15 on a multipart run of one group. *)
Lemma returned_size_is_archive_length_witness :
  3072
  = blen (archiveOf (trace (buildInMemoryConcat demoWorld
                              [inline "a" [x01; x02; x03]; sized "bc" 2]
                              fileSizeMin demoOpts))).
Proof.
  apply (returned_size_is_archive_length demoWorld
           [inline "a" [x01; x02; x03]; sized "bc" 2] fileSizeMin demoOpts
           (mkS3Obj "dst" "archive.tar" "etag-mpu" 3072 0 [])).
  - vm_compute. reflexivity.
  - vm_compute. reflexivity.
Defined.

(** ** The empty list *)

(** X16.  On an empty list, [buildInMemoryConcat] stores an archive of
    two zero blocks on the single-object path; on the multipart path it
    sends no part, completes the upload it created with an empty list of
    parts, and returns a size of zero. *)
Theorem empty_list_runs
    (W : World) (estimatedSize : Z) (opts : S3TarS3Options) :
  (estimatedSize < fileSizeMin ->
   trace (buildInMemoryConcat W [] estimatedSize opts)
   = [EvPutObject (DstBucket opts) (DstKey opts) (zeros 1024)])
  /\ (fileSizeMin <= estimatedSize ->
      uploadedParts (trace (buildInMemoryConcat W [] estimatedSize opts))
      = []
      /\ (forall uploadId,
            CreateMultipartUpload W (DstBucket opts) (DstKey opts)
            = Done uploadId ->
            trace (buildInMemoryConcat W [] estimatedSize opts)
            = [EvCreateMultipartUpload (DstBucket opts) (DstKey opts);
               EvCompleteMultipartUpload uploadId (DstBucket opts)
                 (DstKey opts) []])
      /\ (forall obj,
            outcome (buildInMemoryConcat W [] estimatedSize opts) = Ok obj ->
            Size obj = 0)).
Proof.
  split.
  - intros Hsmall. apply Z.ltb_lt in Hsmall.
    unfold buildInMemoryConcat. simpl findLargestObject.
    change (partSizeMax <? 0) with false. cbv iota. rewrite Hsmall.
    unfold uploadObject, emit, bind, ret. simpl.
    destruct (of_store _ _); reflexivity.
  - intros Hbig. apply Z.ltb_ge in Hbig.
    assert (Hrun : buildInMemoryConcat W [] estimatedSize opts
                   = bind (emit (EvCreateMultipartUpload (DstBucket opts)
                                   (DstKey opts))
                             (of_store "CreateMultipartUpload"
                                (CreateMultipartUpload W (DstBucket opts)
                                   (DstKey opts))))
                       (fun uploadId =>
                          bind (emit (EvCompleteMultipartUpload uploadId
                                        (DstBucket opts) (DstKey opts) [])
                                  (of_store "CompleteMultipartUpload"
                                     (CompleteMultipartUpload W uploadId
                                        (DstBucket opts) (DstKey opts) [])))
                            (fun x =>
                               match x with
                               | (bucket, key, etag) =>
                                   ret (mkS3Obj bucket key etag 0 (now W) [])
                               end))).
    { unfold buildInMemoryConcat. simpl findLargestObject.
      change (partSizeMax <? 0) with false. cbv iota. rewrite Hbig.
      unfold emit, bind, ret. simpl.
      destruct (CreateMultipartUpload W _ _) as [id | msg]; simpl;
        [| reflexivity].
      destruct (CompleteMultipartUpload W _ _ _ _)
        as [[[bucket key] etag] | e]; reflexivity. }
    rewrite Hrun. unfold emit, bind, ret.
    split; [| split].
    + destruct (CreateMultipartUpload W _ _) as [id | msg]; simpl;
        [| reflexivity].
      destruct (CompleteMultipartUpload W _ _ _ _)
        as [[[bucket key] etag] | e]; reflexivity.
    + intros uploadId ->. simpl.
      destruct (CompleteMultipartUpload W _ _ _ _)
        as [[[bucket key] etag] | e]; reflexivity.
    + intros obj.
      destruct (CreateMultipartUpload W _ _) as [id | msg]; simpl;
        [| discriminate].
      destruct (CompleteMultipartUpload W _ _ _ _)
        as [[[bucket key] etag] | e]; simpl; [| discriminate].
      intros E. inversion E. reflexivity.
Qed.

(** ** How much a group can hold *)

Lemma totalSize_group_le (groups : list (list S3Obj)) (group : list S3Obj) :
  Forall (fun o => 0 <= Size o) (concat groups) ->
  In group groups ->
  totalSize group <= totalSize (concat groups).
Proof.
  induction groups as [| g rest IH]; intros Hpos Hin; [contradiction |].
  simpl in *. apply Forall_app in Hpos. destruct Hpos as [Hg Hrest].
  rewrite totalSize_app.
  pose proof (totalSize_nonneg _ Hg).
  pose proof (totalSize_nonneg _ Hrest).
  destruct Hin as [<- | Hin]; [lia |].
  specialize (IH Hrest Hin). lia.
Qed.

(** X17.  With sizes that are not negative and a total below 2^63, no
    group holds more payload than the larger of the ceiling and
    [fileSizeMin], plus the largest object of the list: a group is closed
    by the object that takes it above both.  A group is not compared with
    [partSizeMax]. *)
Theorem group_payload_bound
    (groupSizeLimit : Z) (objectList : list S3Obj) :
  Forall (fun o => 0 <= Size o) objectList ->
  totalSize objectList < 2 ^ 63 ->
  Forall (fun group =>
            totalSize group
            <= Z.max groupSizeLimit fileSizeMin
               + findLargestObject objectList)
         (splitSliceBySizeLimit groupSizeLimit objectList).
Proof.
  intros Hpos Htotal.
  pose proof (splitLoop_greedy groupSizeLimit objectList [] [] 0
                (Forall_nil _) eq_refl) as Hgreedy.
  assert (Hstart : forall a b : list S3Obj,
            [] = a ++ b -> ~ closed groupSizeLimit a).
  { intros a b Hab. destruct a; [apply not_closed_nil | discriminate]. }
  specialize (Hgreedy Hstart). fold (splitSliceBySizeLimit groupSizeLimit
                                       objectList) in Hgreedy.
  pose proof (splitSlice_concat groupSizeLimit objectList) as Hcat.
  apply Forall_forall. intros g Hg.
  rewrite Forall_forall in Hgreedy. specialize (Hgreedy g Hg).
  assert (Hgpos : Forall (fun o => 0 <= Size o) g).
  { apply (Forall_concat_group _
             (splitSliceBySizeLimit groupSizeLimit objectList));
      [now rewrite Hcat | assumption]. }
  assert (Hgle : totalSize g <= totalSize objectList).
  { pose proof (totalSize_group_le
                  (splitSliceBySizeLimit groupSizeLimit objectList) g) as H.
    rewrite Hcat in H. auto. }
  destruct (findLargestLoop_max objectList 0 EmptyString)
    as [Hmax0 [Hmax _]]. fold (findLargestObject objectList) in Hmax0, Hmax.
  destruct g as [| x g'] using rev_ind.
  - simpl.
    pose proof (Z.le_max_r groupSizeLimit fileSizeMin) as Hm.
    assert (0 < fileSizeMin) by (unfold fileSizeMin, MiB; lia).
    lia.
  - clear IHg'.
    apply Forall_app in Hgpos. destruct Hgpos as [Hg'pos Hx].
    inversion Hx as [| ? ? Hxpos _]; subst.
    rewrite totalSize_app in *. simpl in *.
    pose proof (totalSize_nonneg _ Hg'pos) as Hg'0.
    assert (Hnc : ~ closed groupSizeLimit g').
    { apply (Hgreedy g' [x]); [reflexivity | discriminate]. }
    assert (Hcum : cumSize g' = totalSize g').
    { rewrite cumSize_total. apply wrap64_small. unfold in_int64. lia. }
    assert (Hbound : totalSize g' <= Z.max groupSizeLimit fileSizeMin).
    { destruct (Z.le_gt_cases (totalSize g')
                  (Z.max groupSizeLimit fileSizeMin)) as [H | H];
        [assumption |].
      exfalso. apply Hnc. unfold closed. rewrite Hcum. lia. }
    assert (Hxle : Size x <= findLargestObject objectList).
    { rewrite Forall_forall in Hmax. apply Hmax.
      rewrite <- Hcat. apply in_concat. exists (g' ++ [x]).
      split; [assumption | apply in_or_app; right; left; reflexivity]. }
    lia.
Qed.

(** X17 on objects of 3 MiB with a ceiling of 8 MiB. *)
Lemma group_payload_bound_witness :
  Forall (fun group =>
            totalSize group
            <= Z.max (8 * MiB) fileSizeMin
               + findLargestObject
                   [sized "a" (3 * MiB); sized "b" (3 * MiB);
                    sized "c" (3 * MiB); sized "d" (3 * MiB)])
         (splitSliceBySizeLimit (8 * MiB)
            [sized "a" (3 * MiB); sized "b" (3 * MiB);
             sized "c" (3 * MiB); sized "d" (3 * MiB)]).
Proof.
  apply group_payload_bound.
  - repeat constructor; vm_compute; discriminate.
  - vm_compute. reflexivity.
Defined.

(** A group above [partSizeMax] made of objects that are not: 4 MiB and
    then 5 GiB, with a ceiling of 5 MiB, stay in one group. *)
Example group_above_partSizeMax :
  splitSliceBySizeLimit fileSizeMin
    [sized "a" (4 * MiB); sized "b" partSizeMax]
  = [[sized "a" (4 * MiB); sized "b" partSizeMax]]
  /\ findLargestObject [sized "a" (4 * MiB); sized "b" partSizeMax]
     <= partSizeMax
  /\ partSizeMax < totalSize [sized "a" (4 * MiB); sized "b" partSizeMax].
Proof.
  split; [reflexivity |]. split; [vm_compute; discriminate | reflexivity].
Qed.
